(** * BioCro: modules, multilayer quantity names, integrator and solver factory

    A shallow embedding of the module library (thermal_time_linear,
    ball_berry, penman_monteith_leaf_temperature,
    senescence_coefficient_logistic, lightME, multilayer_canopy_properties),
    of [integrator::integrate] and of [SystemSolverFactory], followed by the
    properties proved about them.

    Conventions.
    - A C++ [double] is a primitive binary64 float; arithmetic is the
      kernel's IEEE 754 arithmetic (round to nearest even, one NaN).
    - An [int] is a [Z].
    - A [state_map] (an unordered map from quantity names to doubles) lives
      at an address; a reference or pointer to one of its entries is the pair
      of that address and the entry's key.  All state maps share one heap, so
      that a module whose input and output maps are the same object is
      covered.
    - A C++ exception is the [Err] case of [result]. *)

From Stdlib Require Import ZArith Ascii String PrimFloat.
From Stdlib Require Import SpecFloat FloatOps FloatAxioms.
From stdpp Require Import gmap strings list fin_maps pretty.

(** ** Framework: state maps, exceptions, the evaluation monad *)

Definition state_map_ptr := nat.

Abbreviation slot := (state_map_ptr * string)%type.

Abbreviation heap := (gmap slot float).

Inductive exception :=
| out_of_range (what : string)
| MissingInput (name : string)
| UnknownQuantity (name : string).

Inductive result (A : Type) :=
| Ok (a : A)
| Err (e : exception).

Arguments Ok {A} a.
Arguments Err {A} e.

(** What a module does to the stores, in program order. *)
Inductive event :=
| Bound_input (p : slot)
| Bound_output (p : slot)
| Written (p : slot) (v : float).

(** A computation reads and updates the heap, may throw, and emits events. *)
Definition M (A : Type) : Type := heap → result A * heap * list event.

#[global] Instance M_ret : MRet M := λ A a h, (Ok a, h, []).

#[global] Instance M_bind : MBind M := λ A B f c h,
  match c h with
  | (Ok a, h', t) => let '(r, h'', t') := f a h' in (r, h'', t ++ t')
  | (Err e, h', t) => (Err e, h', t)
  end.

Definition outcome {A} (x : result A * heap * list event) : result A := x.1.1.

Definition final_heap {A} (x : result A * heap * list event) : heap := x.1.2.

Definition events {A} (x : result A * heap * list event) : list event := x.2.

(** Modelled from the spec: [get_input] of modules.h (not under src/).
    Binding a declared input to its entry of the input store; construction
    fails with [MissingInput] when the name is absent at bind time. *)
Definition get_input (input_quantities : state_map_ptr) (name : string) : M slot :=
  λ h, match h !! (input_quantities, name) with
       | Some _ => (Ok (input_quantities, name), h, [Bound_input (input_quantities, name)])
       | None => (Err (MissingInput name), h, [])
       end.

(** Modelled from the spec: [get_ip] of modules.h (not under src/), the
    pointer-returning form of [get_input] used by older modules. *)
Definition get_ip (input_parameters : state_map_ptr) (name : string) : M slot :=
  get_input input_parameters name.

(** Modelled from the spec: [get_op] of modules.h (not under src/).
    Binding a declared output to its entry of the output store; a name that
    the store does not hold is an [UnknownQuantity]. *)
Definition get_op (output_quantities : state_map_ptr) (name : string) : M slot :=
  λ h, match h !! (output_quantities, name) with
       | Some _ => (Ok (output_quantities, name), h, [Bound_output (output_quantities, name)])
       | None => (Err (UnknownQuantity name), h, [])
       end.

(** Reading through a bound reference.  Entries are never erased from a
    state map and the map outlives the module, so a bound slot is present at
    every evaluation; the value given for an absent slot is never used by a
    constructed module evaluated on the stores it was built on. *)
Definition read (h : heap) (p : slot) : float := default nan (h !! p).

Definition deref (p : slot) : M float := λ h, (Ok (read h p), h, []).

(** Modelled from the spec: [update] of modules.h (not under src/).  A write
    to a bound output slot overwrites the entry, and every write is
    observable. *)
Definition update (p : slot) (v : float) : M unit :=
  λ h, (Ok tt, <[p := v]> h, [Written p v]).

Definition bound_inputs (t : list event) : list slot :=
  omap (λ e, match e with Bound_input p => Some p | _ => None end) t.

Definition bound_outputs (t : list event) : list slot :=
  omap (λ e, match e with Bound_output p => Some p | _ => None end) t.

Definition written (t : list event) : list slot :=
  omap (λ e, match e with Written p _ => Some p | _ => None end) t.

(** ** thermal_time_linear (a DerivModule) *)

Module thermal_time_linear.

Record t := {
  temp : slot;
  tbase : slot;
  TTc_op : slot
}.

Definition new (input_parameters output_parameters : state_map_ptr) : M t :=
  temp ← get_input input_parameters "temp";
  tbase ← get_input input_parameters "tbase";
  TTc_op ← get_op output_parameters "TTc";
  mret {| temp := temp; tbase := tbase; TTc_op := TTc_op |}.

Definition get_inputs : list string := ["temp"; "tbase"].

Definition get_outputs : list string := ["TTc"].

Definition do_operation (m : t) : M unit :=
  temp_v ← deref (temp m);
  tbase_v ← deref (tbase m);
  let rate_per_day :=
    if (temp_v <=? tbase_v)%float then 0%float else (temp_v - tbase_v)%float in
  let rate_per_hour := (rate_per_day / 24)%float in
  update (TTc_op m) rate_per_hour.

End thermal_time_linear.

(** ** ball_berry (a direct module) *)

Module ball_berry.

Record t := {
  net_assimilation_rate : slot;
  ambient_c : slot;
  ambient_rh : slot;
  b0 : slot;
  b1 : slot;
  gbw : slot;
  leaf_temperature : slot;
  ambient_air_temperature : slot;
  leaf_stomatal_conductance_op : slot
}.

Definition new (input_quantities output_quantities : state_map_ptr) : M t :=
  net_assimilation_rate ← get_input input_quantities "net_assimilation_rate";
  ambient_c ← get_input input_quantities "Catm";
  ambient_rh ← get_input input_quantities "rh";
  b0 ← get_input input_quantities "b0";
  b1 ← get_input input_quantities "b1";
  gbw ← get_input input_quantities "gbw";
  leaf_temperature ← get_input input_quantities "leaf_temperature";
  ambient_air_temperature ← get_input input_quantities "temp";
  leaf_stomatal_conductance_op ← get_op output_quantities "leaf_stomatal_conductance";
  mret {| net_assimilation_rate := net_assimilation_rate;
          ambient_c := ambient_c;
          ambient_rh := ambient_rh;
          b0 := b0;
          b1 := b1;
          gbw := gbw;
          leaf_temperature := leaf_temperature;
          ambient_air_temperature := ambient_air_temperature;
          leaf_stomatal_conductance_op := leaf_stomatal_conductance_op |}.

Definition get_inputs : list string :=
  ["net_assimilation_rate"; "Catm"; "rh"; "b0"; "b1"; "gbw";
   "leaf_temperature"; "temp"].

Definition get_outputs : list string := ["leaf_stomatal_conductance"].

Section do_operation.

(** [ball_berry_gs] of ball_berry_gs.h (not under src/): a function of its
    eight double arguments. *)
Variable ball_berry_gs :
  float → float → float → float → float → float → float → float → float.

Definition do_operation (m : t) : M unit :=
  a ← deref (net_assimilation_rate m);
  c ← deref (ambient_c m);
  rh ← deref (ambient_rh m);
  b0_v ← deref (b0 m);
  b1_v ← deref (b1 m);
  gbw_v ← deref (gbw m);
  tl ← deref (leaf_temperature m);
  ta ← deref (ambient_air_temperature m);
  update (leaf_stomatal_conductance_op m) (ball_berry_gs a c rh b0_v b1_v gbw_v tl ta).

End do_operation.

End ball_berry.

(** ** penman_monteith_leaf_temperature (a SteadyModule) *)

Module penman_monteith_leaf_temperature.

Record t := {
  slope_water_vapor_ip : slot;
  psychrometric_parameter_ip : slot;
  latent_heat_vaporization_of_water_ip : slot;
  leaf_boundary_layer_conductance_ip : slot;
  leaf_stomatal_conductance_ip : slot;
  leaf_net_irradiance_ip : slot;
  vapor_density_deficit_ip : slot;
  temp_ip : slot;
  leaf_temperature_op : slot
}.

Definition new (input_parameters output_parameters : state_map_ptr) : M t :=
  slope_water_vapor_ip ← get_ip input_parameters "slope_water_vapor";
  psychrometric_parameter_ip ← get_ip input_parameters "psychrometric_parameter";
  latent_heat_vaporization_of_water_ip ←
    get_ip input_parameters "latent_heat_vaporization_of_water";
  leaf_boundary_layer_conductance_ip ←
    get_ip input_parameters "leaf_boundary_layer_conductance";
  leaf_stomatal_conductance_ip ← get_ip input_parameters "leaf_stomatal_conductance";
  leaf_net_irradiance_ip ← get_ip input_parameters "leaf_net_irradiance";
  vapor_density_deficit_ip ← get_ip input_parameters "vapor_density_deficit";
  temp_ip ← get_ip input_parameters "temp";
  leaf_temperature_op ← get_op output_parameters "leaf_temperature";
  mret {| slope_water_vapor_ip := slope_water_vapor_ip;
          psychrometric_parameter_ip := psychrometric_parameter_ip;
          latent_heat_vaporization_of_water_ip := latent_heat_vaporization_of_water_ip;
          leaf_boundary_layer_conductance_ip := leaf_boundary_layer_conductance_ip;
          leaf_stomatal_conductance_ip := leaf_stomatal_conductance_ip;
          leaf_net_irradiance_ip := leaf_net_irradiance_ip;
          vapor_density_deficit_ip := vapor_density_deficit_ip;
          temp_ip := temp_ip;
          leaf_temperature_op := leaf_temperature_op |}.

Definition get_inputs : list string :=
  ["slope_water_vapor"; "psychrometric_parameter";
   "latent_heat_vaporization_of_water"; "leaf_boundary_layer_conductance";
   "leaf_stomatal_conductance"; "leaf_net_irradiance";
   "vapor_density_deficit"; "temp"].

Definition get_outputs : list string := ["leaf_temperature"].

(** 24.39e-3 m^3 / mol, as the nearest double. *)
Definition volume_of_one_mole_of_air : float := 0x1.8f9b13165d399p-6%float.

(** 1e-3, as the nearest double. *)
Definition milli : float := 0x1.0624dd2f1a9fcp-10%float.

Definition do_operation (m : t) : M unit :=
  slope_water_vapor ← deref (slope_water_vapor_ip m);
  psychr_parameter ← deref (psychrometric_parameter_ip m);
  LHV ← deref (latent_heat_vaporization_of_water_ip m);
  ga ← deref (leaf_boundary_layer_conductance_ip m);
  air_temperature ← deref (temp_ip m);
  leaf_stomatal_conductance ← deref (leaf_stomatal_conductance_ip m);
  leaf_net_irradiance ← deref (leaf_net_irradiance_ip m);
  vapor_density_deficit ← deref (vapor_density_deficit_ip m);
  let gc := (leaf_stomatal_conductance * milli * volume_of_one_mole_of_air)%float in
  let delta_t :=
    ((leaf_net_irradiance * (1 / ga + 1 / gc) - LHV * vapor_density_deficit)
     / (LHV * (slope_water_vapor + psychr_parameter * (1 + ga / gc))))%float in
  let leaf_temperature := (air_temperature + delta_t)%float in
  update (leaf_temperature_op m) leaf_temperature.

End penman_monteith_leaf_temperature.

(** ** senescence_coefficient_logistic (a SteadyModule) *)

Module senescence_coefficient_logistic.

Record t := {
  DVI : slot;
  alphaSeneStem : slot;
  alphaSeneLeaf : slot;
  betaSeneStem : slot;
  betaSeneLeaf : slot;
  rateSeneLeaf : slot;
  rateSeneStem : slot;
  alphaSeneRoot : slot;
  alphaSeneRhizome : slot;
  betaSeneRoot : slot;
  betaSeneRhizome : slot;
  rateSeneRoot : slot;
  rateSeneRhizome : slot;
  kSeneStem_op : slot;
  kSeneLeaf_op : slot;
  kSeneRoot_op : slot;
  kSeneRhizome_op : slot
}.

Definition new (input_parameters output_parameters : state_map_ptr) : M t :=
  DVI ← get_input input_parameters "DVI";
  alphaSeneStem ← get_input input_parameters "alphaSeneStem";
  alphaSeneLeaf ← get_input input_parameters "alphaSeneLeaf";
  betaSeneStem ← get_input input_parameters "betaSeneStem";
  betaSeneLeaf ← get_input input_parameters "betaSeneLeaf";
  rateSeneLeaf ← get_input input_parameters "rateSeneLeaf";
  rateSeneStem ← get_input input_parameters "rateSeneStem";
  alphaSeneRoot ← get_input input_parameters "alphaSeneRoot";
  alphaSeneRhizome ← get_input input_parameters "alphaSeneRhizome";
  betaSeneRoot ← get_input input_parameters "betaSeneRoot";
  betaSeneRhizome ← get_input input_parameters "betaSeneRhizome";
  rateSeneRoot ← get_input input_parameters "rateSeneRoot";
  rateSeneRhizome ← get_input input_parameters "rateSeneRhizome";
  kSeneStem_op ← get_op output_parameters "kSeneStem";
  kSeneLeaf_op ← get_op output_parameters "kSeneLeaf";
  kSeneRoot_op ← get_op output_parameters "kSeneRoot";
  kSeneRhizome_op ← get_op output_parameters "kSeneRhizome";
  mret {| DVI := DVI;
          alphaSeneStem := alphaSeneStem;
          alphaSeneLeaf := alphaSeneLeaf;
          betaSeneStem := betaSeneStem;
          betaSeneLeaf := betaSeneLeaf;
          rateSeneLeaf := rateSeneLeaf;
          rateSeneStem := rateSeneStem;
          alphaSeneRoot := alphaSeneRoot;
          alphaSeneRhizome := alphaSeneRhizome;
          betaSeneRoot := betaSeneRoot;
          betaSeneRhizome := betaSeneRhizome;
          rateSeneRoot := rateSeneRoot;
          rateSeneRhizome := rateSeneRhizome;
          kSeneStem_op := kSeneStem_op;
          kSeneLeaf_op := kSeneLeaf_op;
          kSeneRoot_op := kSeneRoot_op;
          kSeneRhizome_op := kSeneRhizome_op |}.

Definition get_inputs : list string :=
  ["DVI"; "alphaSeneStem"; "alphaSeneLeaf"; "betaSeneStem"; "betaSeneLeaf";
   "rateSeneLeaf"; "rateSeneStem"; "alphaSeneRoot"; "alphaSeneRhizome";
   "betaSeneRoot"; "betaSeneRhizome"; "rateSeneRoot"; "rateSeneRhizome"].

Definition get_outputs : list string :=
  ["kSeneStem"; "kSeneLeaf"; "kSeneRoot"; "kSeneRhizome"].

Section do_operation.

(** [exp] of <cmath>: a function of its double argument. *)
Variable exp : float → float.

Definition ksene (rate alpha beta DVI : float) : float :=
  let kSene := (rate / (1 + exp (alpha + beta * DVI)))%float in
  kSene.

(** One call [ksene(rate, alpha, beta, DVI)] on four bound references. *)
Definition ksene_at (rate alpha beta dvi : slot) : M float :=
  r ← deref rate;
  a ← deref alpha;
  b ← deref beta;
  d ← deref dvi;
  mret (ksene r a b d).

Definition do_operation (m : t) : M unit :=
  kSeneStem ← ksene_at (rateSeneStem m) (alphaSeneStem m) (betaSeneStem m) (DVI m);
  kSeneLeaf ← ksene_at (rateSeneLeaf m) (alphaSeneLeaf m) (betaSeneLeaf m) (DVI m);
  kSeneRoot ← ksene_at (rateSeneRoot m) (alphaSeneRoot m) (betaSeneRoot m) (DVI m);
  kSeneRhizome ←
    ksene_at (rateSeneRhizome m) (alphaSeneRhizome m) (betaSeneRhizome m) (DVI m);
  update (kSeneStem_op m) kSeneStem;;
  update (kSeneLeaf_op m) kSeneLeaf;;
  update (kSeneRoot_op m) kSeneRoot;;
  update (kSeneRhizome_op m) kSeneRhizome.

End do_operation.

End senescence_coefficient_logistic.

(** ** The module interface

    Every module class derives from one of the framework's base classes and
    exposes a constructor over (input store, output store), the static
    [get_inputs] and [get_outputs], and [do_operation]. *)

Inductive base_class :=
| direct_module
| SteadyModule
| DerivModule.

(** direct_module is the later name of SteadyModule. *)
Definition is_steady (b : base_class) : bool :=
  match b with
  | direct_module | SteadyModule => true
  | DerivModule => false
  end.

Record module_wrapper := {
  get_name : string;
  base : base_class;
  instance : Type;
  createModule : state_map_ptr → state_map_ptr → M instance;
  get_inputs : list string;
  get_outputs : list string;
  do_operation : instance → M unit
}.

Section module_library.

Variable ball_berry_gs :
  float → float → float → float → float → float → float → float → float.

Variable exp : float → float.

Definition thermal_time_linear_wrapper : module_wrapper := {|
  get_name := "thermal_time_linear";
  base := DerivModule;
  createModule := thermal_time_linear.new;
  get_inputs := thermal_time_linear.get_inputs;
  get_outputs := thermal_time_linear.get_outputs;
  do_operation := thermal_time_linear.do_operation
|}.

Definition ball_berry_wrapper : module_wrapper := {|
  get_name := "ball_berry";
  base := direct_module;
  createModule := ball_berry.new;
  get_inputs := ball_berry.get_inputs;
  get_outputs := ball_berry.get_outputs;
  do_operation := ball_berry.do_operation ball_berry_gs
|}.

Definition penman_monteith_leaf_temperature_wrapper : module_wrapper := {|
  get_name := "penman_monteith_leaf_temperature";
  base := SteadyModule;
  createModule := penman_monteith_leaf_temperature.new;
  get_inputs := penman_monteith_leaf_temperature.get_inputs;
  get_outputs := penman_monteith_leaf_temperature.get_outputs;
  do_operation := penman_monteith_leaf_temperature.do_operation
|}.

Definition senescence_coefficient_logistic_wrapper : module_wrapper := {|
  get_name := "senescence_coefficient_logistic";
  base := SteadyModule;
  createModule := senescence_coefficient_logistic.new;
  get_inputs := senescence_coefficient_logistic.get_inputs;
  get_outputs := senescence_coefficient_logistic.get_outputs;
  do_operation := senescence_coefficient_logistic.do_operation exp
|}.

(** The module classes whose constructor, static name lists and
    [do_operation] are all given in the sources. *)
Definition module_library : list module_wrapper :=
  [ thermal_time_linear_wrapper;
    ball_berry_wrapper;
    penman_monteith_leaf_temperature_wrapper;
    senescence_coefficient_logistic_wrapper ].

End module_library.

(** The entries of a module's input (output) store that carry its declared
    input (output) names. *)
Definition input_slots (w : module_wrapper) (input_quantities : state_map_ptr) : list slot :=
  pair input_quantities <$> get_inputs w.

Definition output_slots (w : module_wrapper) (output_quantities : state_map_ptr) : list slot :=
  pair output_quantities <$> get_outputs w.

(** [m] is an instance of [w] built on the stores at [input_quantities] and
    [output_quantities]. *)
Definition constructed (w : module_wrapper)
    (input_quantities output_quantities : state_map_ptr) (m : instance w) : Prop :=
  ∃ h, outcome (createModule w input_quantities output_quantities h) = Ok m.

(** Writing a list of values to a list of slots, in order. *)
Fixpoint update_all (ps : list slot) (vs : list float) : M unit :=
  match ps, vs with
  | p :: ps, v :: vs => update p v;; update_all ps vs
  | _, _ => mret tt
  end.

(** [w] evaluates as [F]: on every instance, [do_operation] computes the
    values [F q] from the reading [q] of the input store taken before any
    write, and then writes them to the declared output slots in order; and
    [F] looks at the declared inputs only. *)
Definition evaluates_as (w : module_wrapper) (F : (string → float) → list float) : Prop :=
  (∀ q, length (F q) = length (get_outputs w))
  ∧ (∀ q q', (∀ n, n ∈ get_inputs w → q n = q' n) → F q = F q')
  ∧ ∀ ip op m, constructed w ip op m →
      ∀ h, do_operation w m h
           = update_all (output_slots w op) (F (λ n, read h (ip, n))) h.

(** ** lightME *)

Record Light_model := {
  direct_transmittance : float;
  diffuse_transmittance : float;
  direct_fraction : float;
  diffuse_fraction : float
}.

Section lightME.

(** [pow] of <cmath>. *)
Variable pow : float → float → float.

(** [physical_constants::atmospheric_pressure_at_sea_level] of
    framework/constants.h (not under src/). *)
Variable atmospheric_pressure_at_sea_level : float.

Definition lightME
    (cosine_zenith_angle atmospheric_pressure
     atmospheric_transmittance atmospheric_scattering : float) : Light_model :=
  let pressure_ratio :=
    (atmospheric_pressure / atmospheric_pressure_at_sea_level)%float in
  let direct_transmittance :=
    if (cosine_zenith_angle <=? 0)%float then 0%float
    else pow atmospheric_transmittance (pressure_ratio / cosine_zenith_angle)%float in
  let diffuse_transmittance :=
    if (cosine_zenith_angle <=? 0)%float then 1%float
    else (atmospheric_scattering * (1 - direct_transmittance)
          * cosine_zenith_angle)%float in
  let direct_fraction :=
    (direct_transmittance / (direct_transmittance + diffuse_transmittance))%float in
  let diffuse_fraction := (1 - direct_fraction)%float in
  {| direct_transmittance := direct_transmittance;
     diffuse_transmittance := diffuse_transmittance;
     direct_fraction := direct_fraction;
     diffuse_fraction := diffuse_fraction |}.

End lightME.

(** ** Multilayer quantity names *)

(** Modelled from the spec: the layer suffix of a multilayer quantity name
    (the helper that forms it is not under src/): [_layer_<k>] with a
    zero-based index printed in decimal without zero-padding. *)
Definition add_layer_suffix_to_quantity_name (current_layer : Z) (quantity_name : string) : string :=
  quantity_name +:+ "_layer_" +:+ pretty current_layer.

(** Modelled from the spec: the prefix of a leaf class (the helper that forms
    it is not under src/): leaf class [sunlit] has the prefix [sunlit_]. *)
Definition leaf_class_prefix (class_name : string) : string :=
  class_name +:+ "_".

(** Modelled from the spec: the output names generated for one
    multiclass-multilayer base name, [<leaf_class_prefix><base_name>_layer_<k>]
    ([get_outputs(int nlayers)] and the [define_*] functions are declared but
    not defined under src/).  Layers in increasing index order and, within a
    layer, leaf classes in their declared order. *)
Definition multiclass_multilayer_names
    (nlayers : Z) (leaf_class_prefixes : list string) (base_name : string) : list string :=
  i ← seqZ 0 nlayers;
  prefix ← leaf_class_prefixes;
  [add_layer_suffix_to_quantity_name i (prefix +:+ base_name)].

(** Modelled from the spec: the output names generated for one
    pure-multilayer base name. *)
Definition pure_multilayer_names (nlayers : Z) (base_name : string) : list string :=
  i ← seqZ 0 nlayers;
  [add_layer_suffix_to_quantity_name i base_name].

(** Modelled from the spec: the leaf classes of the canopy
    ([define_leaf_classes] is declared in the class and defined outside
    src/): sunlit and shaded, the two classes the comment of the class and
    the names bound by its constructor give. *)
Definition define_leaf_classes : list string := ["sunlit"; "shaded"].

(** Modelled from the spec: the base names of the outputs that differ by
    leaf class and layer ([define_multiclass_multilayer_outputs] is declared
    in the class and defined outside src/), read off the names the
    constructor binds for both leaf classes. *)
Definition define_multiclass_multilayer_outputs : list string :=
  ["incident_par"; "fraction"].

(** Modelled from the spec: the base names of the outputs that differ by
    layer only ([define_pure_multilayer_outputs] is declared in the class
    and defined outside src/), read off the names the constructor binds
    without a leaf class. *)
Definition define_pure_multilayer_outputs : list string :=
  [ "incident_scattered_par"; "incident_average_par";
    "height"; "rh"; "windspeed"; "LeafN" ].

(** Modelled from the spec: all output names generated for a list of
    leaf-class prefixes and the two lists of base names ([get_outputs(int
    nlayers)] is declared in the class and defined outside src/): the
    multiclass names of every multiclass base name, then the pure names of
    every pure base name. *)
Definition generated_output_names (nlayers : Z)
    (leaf_class_prefixes multiclass_outputs pure_outputs : list string) : list string :=
  (base_name ← multiclass_outputs;
   multiclass_multilayer_names nlayers leaf_class_prefixes base_name)
  ++ (base_name ← pure_outputs; pure_multilayer_names nlayers base_name).

(** The names of the generated quantities before the layer suffix is added:
    every multiclass base name under every leaf-class prefix, and every pure
    base name. *)
Definition quantity_names
    (leaf_class_prefixes multiclass_outputs pure_outputs : list string) : list string :=
  (base_name ← multiclass_outputs;
   prefix ← leaf_class_prefixes;
   [prefix +:+ base_name])
  ++ pure_outputs.

(** The string left after the first [n] characters, and whether a string
    ends with another. *)
Fixpoint drop_chars (n : nat) (s : string) : string :=
  match n, s with
  | S n, String _ s => drop_chars n s
  | _, _ => s
  end.

Definition ends_with (t s : string) : bool :=
  bool_decide (drop_chars (String.length s - String.length t) s = t).

(** Modelled from the spec: [get_multilayer_op] of modules.h (not under
    src/): one output pointer per layer, for the layer-suffixed names. *)
Definition get_multilayer_op
    (output_quantities : state_map_ptr) (nlayers : Z) (name : string) : M (list slot) :=
  mapM (λ i, get_op output_quantities (add_layer_suffix_to_quantity_name i name))
       (seqZ 0 nlayers).

Module multilayer_canopy_properties.

Record t := {
  module_name : string;
  nlayers : Z;
  par_incident_direct : slot;
  par_incident_diffuse : slot;
  absorptivity_par : slot;
  lai : slot;
  cosine_zenith_angle : slot;
  kd : slot;
  chil : slot;
  heightf : slot;
  rh : slot;
  windspeed : slot;
  LeafN : slot;
  kpLN : slot;
  lnfun : slot;
  par_energy_content : slot;
  sunlit_incident_par_ops : list slot;
  sunlit_fraction_ops : list slot;
  shaded_incident_par_ops : list slot;
  shaded_fraction_ops : list slot;
  incident_scattered_par_ops : list slot;
  incident_average_par_ops : list slot;
  height_ops : list slot;
  rh_ops : list slot;
  windspeed_ops : list slot;
  LeafN_ops : list slot
}.

Definition new (module_name : string) (nlayers : Z)
    (input_quantities output_quantities : state_map_ptr) : M t :=
  par_incident_direct ← get_input input_quantities "par_incident_direct";
  par_incident_diffuse ← get_input input_quantities "par_incident_diffuse";
  absorptivity_par ← get_input input_quantities "absorptivity_par";
  lai ← get_input input_quantities "lai";
  cosine_zenith_angle ← get_input input_quantities "cosine_zenith_angle";
  kd ← get_input input_quantities "kd";
  chil ← get_input input_quantities "chil";
  heightf ← get_input input_quantities "heightf";
  rh ← get_input input_quantities "rh";
  windspeed ← get_input input_quantities "windspeed";
  LeafN ← get_input input_quantities "LeafN";
  kpLN ← get_input input_quantities "kpLN";
  lnfun ← get_input input_quantities "lnfun";
  par_energy_content ← get_input input_quantities "par_energy_content";
  sunlit_incident_par_ops ← get_multilayer_op output_quantities nlayers "sunlit_incident_par";
  sunlit_fraction_ops ← get_multilayer_op output_quantities nlayers "sunlit_fraction";
  shaded_incident_par_ops ← get_multilayer_op output_quantities nlayers "shaded_incident_par";
  shaded_fraction_ops ← get_multilayer_op output_quantities nlayers "shaded_fraction";
  incident_scattered_par_ops ←
    get_multilayer_op output_quantities nlayers "incident_scattered_par";
  incident_average_par_ops ←
    get_multilayer_op output_quantities nlayers "incident_average_par";
  height_ops ← get_multilayer_op output_quantities nlayers "height";
  rh_ops ← get_multilayer_op output_quantities nlayers "rh";
  windspeed_ops ← get_multilayer_op output_quantities nlayers "windspeed";
  LeafN_ops ← get_multilayer_op output_quantities nlayers "LeafN";
  mret {| module_name := module_name;
          nlayers := nlayers;
          par_incident_direct := par_incident_direct;
          par_incident_diffuse := par_incident_diffuse;
          absorptivity_par := absorptivity_par;
          lai := lai;
          cosine_zenith_angle := cosine_zenith_angle;
          kd := kd;
          chil := chil;
          heightf := heightf;
          rh := rh;
          windspeed := windspeed;
          LeafN := LeafN;
          kpLN := kpLN;
          lnfun := lnfun;
          par_energy_content := par_energy_content;
          sunlit_incident_par_ops := sunlit_incident_par_ops;
          sunlit_fraction_ops := sunlit_fraction_ops;
          shaded_incident_par_ops := shaded_incident_par_ops;
          shaded_fraction_ops := shaded_fraction_ops;
          incident_scattered_par_ops := incident_scattered_par_ops;
          incident_average_par_ops := incident_average_par_ops;
          height_ops := height_ops;
          rh_ops := rh_ops;
          windspeed_ops := windspeed_ops;
          LeafN_ops := LeafN_ops |}.

End multilayer_canopy_properties.

(** ** integrator::integrate *)

Module integrator.

Section integrator.

(** The rest of a dynamical system (modules, quantities), the type of an
    integration result, both left open. *)
Context {system_state state_vector_map : Type}.

(** Modelled from the spec: the dynamical system (its class is not under
    src/) as far as [integrate] touches it: an evaluation counter and the
    adaptive-compatibility property fixed at construction. *)
Record dynamical_system := {
  ncalls : Z;
  adaptive_compatible : bool;
  quantities : system_state
}.

(** Modelled from the spec: reports the static compatibility property. *)
Definition is_adaptive_compatible (sys : dynamical_system) : bool :=
  adaptive_compatible sys.

(** Modelled from the spec: [reset_ncalls] zeroes the evaluation counter. *)
Definition reset_ncalls (sys : dynamical_system) : dynamical_system :=
  {| ncalls := 0;
     adaptive_compatible := adaptive_compatible sys;
     quantities := quantities sys |}.

(** The data members of [integrator] that [integrate] reads or writes. *)
Record t := {
  check_adaptive_compatible : bool;
  integrate_method_has_been_called : bool
}.

(** A member function called on an integrator with the shared system: it
    returns or throws, and may leave both objects changed. *)
Definition method : Type :=
  t → dynamical_system → result state_vector_map * t * dynamical_system.

(** The two member functions [integrate] delegates to (declared in
    integrator.h, not under src/). *)
Variable do_integrate : method.

Variable handle_adaptive_incompatibility : method.

Definition integrate : method := λ this sys,
  let this :=
    {| check_adaptive_compatible := check_adaptive_compatible this;
       integrate_method_has_been_called := true |} in
  if check_adaptive_compatible this && negb (is_adaptive_compatible sys)
  then handle_adaptive_incompatibility this sys
  else
    let sys := reset_ncalls sys in
    do_integrate this sys.

End integrator.

Arguments dynamical_system : clear implicits.
Arguments method : clear implicits.

End integrator.

(** ** SystemSolverFactory *)

Module SystemSolverFactory.

(** The solver classes the registry names. *)
Inductive solver_class :=
| auto_solver
| homemade_euler_solver
| boost_euler_system_solver
| boost_rsnbrk_system_solver
| boost_rk4_system_solver
| boost_rkck54_system_solver.

Record system_solver := {
  class : solver_class;
  step_size : float;
  rel_error_tolerance : float;
  abs_error_tolerance : float;
  max_steps : Z
}.

Definition system_solver_creator : Type :=
  float → float → float → Z → result system_solver.

(** Modelled from the spec: [createSystemSolver<T>] (SystemSolverFactory.hpp
    is not under src/) constructs a solver of class [T] from the step size,
    the two error tolerances and the step limit. *)
Definition createSystemSolver (T : solver_class) : system_solver_creator :=
  λ step_size rel_error_tolerance abs_error_tolerance max_steps,
    Ok {| class := T;
          step_size := step_size;
          rel_error_tolerance := rel_error_tolerance;
          abs_error_tolerance := abs_error_tolerance;
          max_steps := max_steps |}.

Definition system_solver_creators : gmap string system_solver_creator :=
  list_to_map
    [ ("Gro", createSystemSolver auto_solver);
      ("Gro_euler", createSystemSolver homemade_euler_solver);
      ("Gro_euler_odeint", createSystemSolver boost_euler_system_solver);
      ("Gro_rsnbrk", createSystemSolver boost_rsnbrk_system_solver);
      ("Gro_rk4", createSystemSolver boost_rk4_system_solver);
      ("Gro_rkck54", createSystemSolver boost_rkck54_system_solver) ].

(** [std::map::at]: the mapped value, or [std::out_of_range]. *)
Definition at_ {V} (m : gmap string V) (key : string) : result V :=
  match m !! key with
  | Some v => Ok v
  | None => Err (out_of_range "map::at")
  end.

Definition double_quote : string := String "034"%char EmptyString.

Definition newline : string := String "010"%char EmptyString.

Definition message (system_solver_name : string) : string :=
  double_quote +:+ system_solver_name +:+ double_quote
  +:+ " was given as a system_solver name, "
  +:+ "but no system_solver with that name could be found." +:+ newline +:+ ".".

(** [operator()]: the try block looks the creator up and calls it; the catch
    clause replaces any [std::out_of_range] by one carrying [message]. *)
Definition call (system_solver_name : string)
    (step_size rel_error_tolerance abs_error_tolerance : float) (max_steps : Z)
    : result system_solver :=
  let try :=
    match at_ system_solver_creators system_solver_name with
    | Ok creator => creator step_size rel_error_tolerance abs_error_tolerance max_steps
    | Err e => Err e
    end in
  match try with
  | Err (out_of_range _) => Err (out_of_range (message system_solver_name))
  | r => r
  end.

Definition get_solvers : list string :=
  (map_to_list system_solver_creators).*1.

End SystemSolverFactory.

(** ** Example stores *)

(** A heap holding, in the state map at [a], the value [v] under each of
    [names]. *)
Definition store_with (a : state_map_ptr) (names : list string) (v : float) : heap :=
  list_to_map ((λ n, ((a, n), v)) <$> names).

(** Stand-ins for the library functions, used only to run examples. *)
Definition example_gs : float → float → float → float → float → float → float → float → float :=
  λ a c rh b0 b1 gbw tl ta, (b0 + b1 * a * rh / c)%float.

Definition example_exp : float → float := λ x, (1 + x)%float.

Definition example_pow : float → float → float := λ x y, (x * y)%float.

(** Stand-ins for the two member functions [integrate] delegates to: a
    stepping algorithm that reports the counter it starts from, and a
    fallback handler that throws. *)
Definition example_stepper : integrator.method unit Z :=
  λ this sys, (Ok (integrator.ncalls sys), this, sys).

Definition example_handler : integrator.method unit Z :=
  λ this sys, (Err (out_of_range "not adaptive compatible"), this, sys).

(** ** Characters of a string *)

Fixpoint occurs (c : ascii) (s : string) : bool :=
  match s with
  | EmptyString => false
  | String c' s' => bool_decide (c' = c) || occurs c s'
  end.

(** ** Classes of doubles *)

(** A zero of either sign. *)
Definition is_zero (x : float) : Prop := ∃ s, Prim2SF x = S754_zero s.

(** An infinity of either sign, or NaN. *)
Definition unbounded (x : float) : Prop :=
  Prim2SF x = S754_nan ∨ ∃ s, Prim2SF x = S754_infinity s.

(** ** Construction *)

(** Every declared input is in the input store and every declared output in
    the output store. *)
Definition all_bound (w : module_wrapper) (ip op : state_map_ptr) (h : heap) : Prop :=
  (∀ n, n ∈ get_inputs w → is_Some (h !! (ip, n)))
  ∧ (∀ n, n ∈ get_outputs w → is_Some (h !! (op, n))).

(** What the constructor of [w] reports: it never changes the heap; it
    returns when all declared names are bound; and an exception names a
    declared name that the store lacks (a lacking output is met only after
    all inputs were found). *)
Definition construction_reports (w : module_wrapper) : Prop :=
  ∀ (ip op : state_map_ptr) (h : heap),
    final_heap (createModule w ip op h) = h
    ∧ match outcome (createModule w ip op h) with
      | Ok _ => all_bound w ip op h
      | Err (MissingInput n) => n ∈ get_inputs w ∧ h !! (ip, n) = None
      | Err (UnknownQuantity n) =>
          n ∈ get_outputs w ∧ h !! (op, n) = None
          ∧ ∀ n', n' ∈ get_inputs w → is_Some (h !! (ip, n'))
      | Err (out_of_range _) => False
      end.

(** ** The end of a string *)

Fixpoint last_char (s : string) : option ascii :=
  match s with
  | EmptyString => None
  | String c EmptyString => Some c
  | String _ s' => last_char s'
  end.

Definition ends_with_digit (s : string) : bool :=
  match last_char s with
  | Some c => match Ascii.is_nat c with Some _ => true | None => false end
  | None => false
  end.

(** ** The members of multilayer_canopy_properties *)

(** The ten vectors of output pointers with the base names they are bound
    under, in the order of the constructor. *)
Definition multilayer_ops (m : multilayer_canopy_properties.t) : list (string * list slot) :=
  [ ("sunlit_incident_par", multilayer_canopy_properties.sunlit_incident_par_ops m);
    ("sunlit_fraction", multilayer_canopy_properties.sunlit_fraction_ops m);
    ("shaded_incident_par", multilayer_canopy_properties.shaded_incident_par_ops m);
    ("shaded_fraction", multilayer_canopy_properties.shaded_fraction_ops m);
    ("incident_scattered_par", multilayer_canopy_properties.incident_scattered_par_ops m);
    ("incident_average_par", multilayer_canopy_properties.incident_average_par_ops m);
    ("height", multilayer_canopy_properties.height_ops m);
    ("rh", multilayer_canopy_properties.rh_ops m);
    ("windspeed", multilayer_canopy_properties.windspeed_ops m);
    ("LeafN", multilayer_canopy_properties.LeafN_ops m) ].

(** The fourteen input references, in the order of the constructor. *)
Definition multilayer_inputs (m : multilayer_canopy_properties.t) : list slot :=
  [ multilayer_canopy_properties.par_incident_direct m;
    multilayer_canopy_properties.par_incident_diffuse m;
    multilayer_canopy_properties.absorptivity_par m;
    multilayer_canopy_properties.lai m;
    multilayer_canopy_properties.cosine_zenith_angle m;
    multilayer_canopy_properties.kd m;
    multilayer_canopy_properties.chil m;
    multilayer_canopy_properties.heightf m;
    multilayer_canopy_properties.rh m;
    multilayer_canopy_properties.windspeed m;
    multilayer_canopy_properties.LeafN m;
    multilayer_canopy_properties.kpLN m;
    multilayer_canopy_properties.lnfun m;
    multilayer_canopy_properties.par_energy_content m ].

(** ** Comparing solver classes *)

#[global] Instance solver_class_eq_dec : EqDecision SystemSolverFactory.solver_class.
Proof. solve_decision. Defined.

(** * Properties *)

(** ** The evaluation monad *)

Lemma update_all_outcome ps vs h : outcome (update_all ps vs h) = Ok tt.
Proof.
  revert vs h. induction ps as [|p ps IH]; intros [|v vs] h; try done.
  specialize (IH vs (<[p:=v]> h)). unfold outcome in *.
  cbn [update_all]. unfold mbind, M_bind, update.
  destruct (update_all ps vs (<[p:=v]> h)) as [[r h'] t]. simpl in *. by subst.
Qed.

Lemma update_all_step p ps v vs h :
  update_all (p :: ps) (v :: vs) h
  = (outcome (update_all ps vs (<[p:=v]> h)),
     final_heap (update_all ps vs (<[p:=v]> h)),
     Written p v :: events (update_all ps vs (<[p:=v]> h))).
Proof.
  cbn [update_all]. unfold mbind, M_bind, update, outcome, final_heap, events.
  by destruct (update_all ps vs (<[p:=v]> h)) as [[r h'] t].
Qed.

Lemma update_all_written ps vs h :
  length vs = length ps → written (events (update_all ps vs h)) = ps.
Proof.
  revert vs h. induction ps as [|p ps IH]; intros [|v vs] h Hlen; try done.
  rewrite update_all_step. cbn. f_equal. apply IH. simpl in Hlen. lia.
Qed.

Lemma update_all_frame ps vs h p :
  p ∉ ps → final_heap (update_all ps vs h) !! p = h !! p.
Proof.
  revert vs h. induction ps as [|p' ps IH]; intros [|v vs] h Hp; try done.
  rewrite update_all_step. cbn. apply not_elem_of_cons in Hp as [Hne Hp].
  rewrite IH by done. by rewrite lookup_insert_ne.
Qed.

Lemma update_all_lookup ps vs h i p v :
  NoDup ps → ps !! i = Some p → vs !! i = Some v →
  final_heap (update_all ps vs h) !! p = Some v.
Proof.
  revert vs h i. induction ps as [|p' ps IH]; intros [|v' vs] h i Hnd Hp Hv; try done.
  apply NoDup_cons in Hnd as [Hnotin Hnd].
  rewrite update_all_step. cbn. destruct i as [|i]; simplify_eq/=.
  - rewrite update_all_frame by done. apply lookup_insert_eq.
  - by eapply IH.
Qed.

(** ** The four module classes *)

(** Case analysis on the bindings of a constructor run on [h]: each lookup
    either finds the entry or makes the constructor throw. *)
Ltac bindings h :=
  unfold get_ip, get_input, get_op, mbind, M_bind, mret, M_ret, outcome;
  repeat match goal with
    | |- context [h !! ?p] => destruct (h !! p); [|by intros]
    end.

(** The equations a name-wise agreement on a declared list gives. *)
Ltac agreement H :=
  apply Forall_forall in H; cbn in H;
  repeat (apply Forall_cons in H as [? H]);
  cbn zeta;
  repeat match goal with E : _ = _ |- _ => rewrite E; clear E end;
  reflexivity.

Section modules.

Variable ball_berry_gs :
  float → float → float → float → float → float → float → float → float.

Variable exp : float → float.

Lemma thermal_time_linear_new_binds ip op h m :
  outcome (thermal_time_linear.new ip op h) = Ok m →
  m = {| thermal_time_linear.temp := (ip, "temp");
         thermal_time_linear.tbase := (ip, "tbase");
         thermal_time_linear.TTc_op := (op, "TTc") |}
  ∧ final_heap (thermal_time_linear.new ip op h) = h
  ∧ events (thermal_time_linear.new ip op h)
    = (Bound_input <$> input_slots thermal_time_linear_wrapper ip)
      ++ (Bound_output <$> output_slots thermal_time_linear_wrapper op).
Proof.
  unfold thermal_time_linear.new, final_heap, events. bindings h.
  cbn. by intros [= <-].
Qed.

Lemma thermal_time_linear_evaluates :
  evaluates_as thermal_time_linear_wrapper
    (λ q, [((if (q "temp" <=? q "tbase")%float then 0 else q "temp" - q "tbase") / 24)%float]).
Proof.
  split_and!; [done| |].
  - intros q q' H. agreement H.
  - intros ip op m [h0 Hm] h. apply thermal_time_linear_new_binds in Hm as (-> & _). done.
Qed.

Lemma ball_berry_new_binds ip op h m :
  outcome (ball_berry.new ip op h) = Ok m →
  m = {| ball_berry.net_assimilation_rate := (ip, "net_assimilation_rate");
         ball_berry.ambient_c := (ip, "Catm");
         ball_berry.ambient_rh := (ip, "rh");
         ball_berry.b0 := (ip, "b0");
         ball_berry.b1 := (ip, "b1");
         ball_berry.gbw := (ip, "gbw");
         ball_berry.leaf_temperature := (ip, "leaf_temperature");
         ball_berry.ambient_air_temperature := (ip, "temp");
         ball_berry.leaf_stomatal_conductance_op := (op, "leaf_stomatal_conductance") |}
  ∧ final_heap (ball_berry.new ip op h) = h
  ∧ events (ball_berry.new ip op h)
    = (Bound_input <$> input_slots (ball_berry_wrapper ball_berry_gs) ip)
      ++ (Bound_output <$> output_slots (ball_berry_wrapper ball_berry_gs) op).
Proof.
  unfold ball_berry.new, final_heap, events. bindings h.
  cbn. by intros [= <-].
Qed.

Lemma ball_berry_evaluates :
  evaluates_as (ball_berry_wrapper ball_berry_gs)
    (λ q, [ball_berry_gs (q "net_assimilation_rate") (q "Catm") (q "rh") (q "b0")
             (q "b1") (q "gbw") (q "leaf_temperature") (q "temp")]).
Proof.
  split_and!; [done| |].
  - intros q q' H. agreement H.
  - intros ip op m [h0 Hm] h. apply ball_berry_new_binds in Hm as (-> & _). done.
Qed.

Lemma penman_monteith_leaf_temperature_new_binds ip op h m :
  outcome (penman_monteith_leaf_temperature.new ip op h) = Ok m →
  m = {| penman_monteith_leaf_temperature.slope_water_vapor_ip := (ip, "slope_water_vapor");
         penman_monteith_leaf_temperature.psychrometric_parameter_ip :=
           (ip, "psychrometric_parameter");
         penman_monteith_leaf_temperature.latent_heat_vaporization_of_water_ip :=
           (ip, "latent_heat_vaporization_of_water");
         penman_monteith_leaf_temperature.leaf_boundary_layer_conductance_ip :=
           (ip, "leaf_boundary_layer_conductance");
         penman_monteith_leaf_temperature.leaf_stomatal_conductance_ip :=
           (ip, "leaf_stomatal_conductance");
         penman_monteith_leaf_temperature.leaf_net_irradiance_ip :=
           (ip, "leaf_net_irradiance");
         penman_monteith_leaf_temperature.vapor_density_deficit_ip :=
           (ip, "vapor_density_deficit");
         penman_monteith_leaf_temperature.temp_ip := (ip, "temp");
         penman_monteith_leaf_temperature.leaf_temperature_op := (op, "leaf_temperature") |}
  ∧ final_heap (penman_monteith_leaf_temperature.new ip op h) = h
  ∧ events (penman_monteith_leaf_temperature.new ip op h)
    = (Bound_input <$> input_slots penman_monteith_leaf_temperature_wrapper ip)
      ++ (Bound_output <$> output_slots penman_monteith_leaf_temperature_wrapper op).
Proof.
  unfold penman_monteith_leaf_temperature.new, final_heap, events. bindings h.
  cbn. by intros [= <-].
Qed.

Lemma penman_monteith_leaf_temperature_evaluates :
  evaluates_as penman_monteith_leaf_temperature_wrapper
    (λ q,
       let gc :=
         (q "leaf_stomatal_conductance" * penman_monteith_leaf_temperature.milli
          * penman_monteith_leaf_temperature.volume_of_one_mole_of_air)%float in
       [(q "temp"
         + (q "leaf_net_irradiance"
              * (1 / q "leaf_boundary_layer_conductance" + 1 / gc)
            - q "latent_heat_vaporization_of_water" * q "vapor_density_deficit")
           / (q "latent_heat_vaporization_of_water"
              * (q "slope_water_vapor"
                 + q "psychrometric_parameter"
                   * (1 + q "leaf_boundary_layer_conductance" / gc))))%float]).
Proof.
  split_and!; [done| |].
  - intros q q' H. agreement H.
  - intros ip op m [h0 Hm] h.
    apply penman_monteith_leaf_temperature_new_binds in Hm as (-> & _). done.
Qed.

Lemma senescence_coefficient_logistic_new_binds ip op h m :
  outcome (senescence_coefficient_logistic.new ip op h) = Ok m →
  m = {| senescence_coefficient_logistic.DVI := (ip, "DVI");
         senescence_coefficient_logistic.alphaSeneStem := (ip, "alphaSeneStem");
         senescence_coefficient_logistic.alphaSeneLeaf := (ip, "alphaSeneLeaf");
         senescence_coefficient_logistic.betaSeneStem := (ip, "betaSeneStem");
         senescence_coefficient_logistic.betaSeneLeaf := (ip, "betaSeneLeaf");
         senescence_coefficient_logistic.rateSeneLeaf := (ip, "rateSeneLeaf");
         senescence_coefficient_logistic.rateSeneStem := (ip, "rateSeneStem");
         senescence_coefficient_logistic.alphaSeneRoot := (ip, "alphaSeneRoot");
         senescence_coefficient_logistic.alphaSeneRhizome := (ip, "alphaSeneRhizome");
         senescence_coefficient_logistic.betaSeneRoot := (ip, "betaSeneRoot");
         senescence_coefficient_logistic.betaSeneRhizome := (ip, "betaSeneRhizome");
         senescence_coefficient_logistic.rateSeneRoot := (ip, "rateSeneRoot");
         senescence_coefficient_logistic.rateSeneRhizome := (ip, "rateSeneRhizome");
         senescence_coefficient_logistic.kSeneStem_op := (op, "kSeneStem");
         senescence_coefficient_logistic.kSeneLeaf_op := (op, "kSeneLeaf");
         senescence_coefficient_logistic.kSeneRoot_op := (op, "kSeneRoot");
         senescence_coefficient_logistic.kSeneRhizome_op := (op, "kSeneRhizome") |}
  ∧ final_heap (senescence_coefficient_logistic.new ip op h) = h
  ∧ events (senescence_coefficient_logistic.new ip op h)
    = (Bound_input <$> input_slots (senescence_coefficient_logistic_wrapper exp) ip)
      ++ (Bound_output <$> output_slots (senescence_coefficient_logistic_wrapper exp) op).
Proof.
  unfold senescence_coefficient_logistic.new, final_heap, events. bindings h.
  cbn. by intros [= <-].
Qed.

Lemma senescence_coefficient_logistic_evaluates :
  evaluates_as (senescence_coefficient_logistic_wrapper exp)
    (λ q,
       [ senescence_coefficient_logistic.ksene exp
           (q "rateSeneStem") (q "alphaSeneStem") (q "betaSeneStem") (q "DVI");
         senescence_coefficient_logistic.ksene exp
           (q "rateSeneLeaf") (q "alphaSeneLeaf") (q "betaSeneLeaf") (q "DVI");
         senescence_coefficient_logistic.ksene exp
           (q "rateSeneRoot") (q "alphaSeneRoot") (q "betaSeneRoot") (q "DVI");
         senescence_coefficient_logistic.ksene exp
           (q "rateSeneRhizome") (q "alphaSeneRhizome") (q "betaSeneRhizome") (q "DVI") ]).
Proof.
  split_and!; [done| |].
  - intros q q' H. agreement H.
  - intros ip op m [h0 Hm] h.
    apply senescence_coefficient_logistic_new_binds in Hm as (-> & _). done.
Qed.

End modules.

(** ** What [evaluates_as] gives, for any module *)

Lemma update_all_events_heap ps vs h h' :
  events (update_all ps vs h) = events (update_all ps vs h').
Proof.
  revert vs h h'. induction ps as [|p ps IH]; intros [|v vs] h h'; try done.
  rewrite !update_all_step. cbn. f_equal. apply IH.
Qed.

Lemma update_all_again ps vs h :
  NoDup ps → length vs = length ps →
  final_heap (update_all ps vs (final_heap (update_all ps vs h)))
  = final_heap (update_all ps vs h).
Proof.
  intros Hnd Hlen. apply map_eq. intros p.
  destruct (decide (p ∈ ps)) as [Hin|Hout].
  - apply list_elem_of_lookup in Hin as [i Hi].
    destruct (lookup_lt_is_Some_2 vs i) as [v Hv].
    { rewrite Hlen. by eapply lookup_lt_Some. }
    by rewrite !(update_all_lookup ps vs _ i p v).
  - by rewrite update_all_frame.
Qed.

Lemma triple_eq {A} (x y : result A * heap * list event) :
  outcome x = outcome y → final_heap x = final_heap y → events x = events y → x = y.
Proof. destruct x as [[??]?], y as [[??]?]. cbn. congruence. Qed.

Section evaluates_as.

Context (w : module_wrapper) (F : (string → float) → list float).
Context (HF : evaluates_as w F).
Context (ip op : state_map_ptr) (m : instance w) (Hm : constructed w ip op m).

Lemma evaluates_as_outcome h : outcome (do_operation w m h) = Ok tt.
Proof. destruct HF as (_ & _ & Hrun). rewrite (Hrun ip op m Hm). apply update_all_outcome. Qed.

Lemma evaluates_as_written h :
  written (events (do_operation w m h)) = output_slots w op.
Proof.
  destruct HF as (Hlen & _ & Hrun). rewrite (Hrun ip op m Hm). apply update_all_written.
  unfold output_slots. by rewrite length_fmap.
Qed.

Lemma evaluates_as_frame h p :
  p ∉ output_slots w op → final_heap (do_operation w m h) !! p = h !! p.
Proof. destruct HF as (_ & _ & Hrun). rewrite (Hrun ip op m Hm). apply update_all_frame. Qed.

Lemma evaluates_as_output h i n :
  NoDup (get_outputs w) → get_outputs w !! i = Some n →
  final_heap (do_operation w m h) !! (op, n) = F (λ n, read h (ip, n)) !! i.
Proof.
  intros Hnd Hn. destruct HF as (Hlen & _ & Hrun). rewrite (Hrun ip op m Hm).
  destruct (lookup_lt_is_Some_2 (F (λ n, read h (ip, n))) i) as [v Hv].
  { rewrite Hlen. by eapply lookup_lt_Some. }
  rewrite Hv. apply (update_all_lookup _ _ _ i); [|by unfold output_slots; rewrite list_lookup_fmap, Hn|done].
  apply NoDup_fmap_2; [|done]. by intros ?? [=].
Qed.

Lemma evaluates_as_again h :
  NoDup (get_outputs w) → (∀ n, n ∈ get_inputs w → n ∉ get_outputs w) →
  do_operation w m (final_heap (do_operation w m h)) = do_operation w m h.
Proof.
  intros Hnd Hdisj.
  assert (F (λ n, read (final_heap (do_operation w m h)) (ip, n))
          = F (λ n, read h (ip, n))) as HF'.
  { destruct HF as (_ & Hext & _). apply Hext. intros n Hn. unfold read.
    rewrite evaluates_as_frame; [done|]. unfold output_slots.
    intros (n' & [= _ <-] & ?)%list_elem_of_fmap. by eapply Hdisj. }
  destruct HF as (Hlen & _ & Hrun). rewrite (Hrun ip op m Hm (final_heap _)), HF'.
  rewrite (Hrun ip op m Hm h).
  assert (NoDup (output_slots w op)) by (apply NoDup_fmap_2; [by intros ?? [=]|done]).
  assert (length (F (λ n, read h (ip, n))) = length (output_slots w op))
    by (unfold output_slots; by rewrite length_fmap).
  apply triple_eq.
  - by rewrite !update_all_outcome.
  - by apply update_all_again.
  - apply update_all_events_heap.
Qed.

End evaluates_as.

(** ** The library as a whole *)

Lemma bound_inputs_of_binding (a b : list slot) :
  bound_inputs ((Bound_input <$> a) ++ (Bound_output <$> b)) = a.
Proof.
  unfold bound_inputs. rewrite omap_app.
  replace (omap _ (Bound_output <$> b)) with (@nil slot) by (induction b; by cbn).
  rewrite app_nil_r. induction a; cbn; by f_equal.
Qed.

Lemma bound_outputs_of_binding (a b : list slot) :
  bound_outputs ((Bound_input <$> a) ++ (Bound_output <$> b)) = b.
Proof.
  unfold bound_outputs. rewrite omap_app.
  replace (omap _ (Bound_input <$> a)) with (@nil slot) by (induction a; by cbn).
  cbn. induction b; cbn; by f_equal.
Qed.

Section module_library.

Variable ball_berry_gs :
  float → float → float → float → float → float → float → float → float.

Variable exp : float → float.

Lemma module_library_evaluates w :
  w ∈ module_library ball_berry_gs exp → ∃ F, evaluates_as w F.
Proof.
  unfold module_library. rewrite !elem_of_cons, elem_of_nil.
  intros [->|[->|[->|[->|[]]]]]; eexists.
  - apply thermal_time_linear_evaluates.
  - apply ball_berry_evaluates.
  - apply penman_monteith_leaf_temperature_evaluates.
  - apply senescence_coefficient_logistic_evaluates.
Qed.

Lemma module_library_binds w ip op h m :
  w ∈ module_library ball_berry_gs exp → outcome (createModule w ip op h) = Ok m →
  final_heap (createModule w ip op h) = h
  ∧ events (createModule w ip op h)
    = (Bound_input <$> input_slots w ip) ++ (Bound_output <$> output_slots w op).
Proof.
  unfold module_library. rewrite !elem_of_cons, elem_of_nil.
  intros [->|[->|[->|[->|[]]]]] Hm.
  - by apply thermal_time_linear_new_binds in Hm as (_ & ? & ?).
  - by apply (ball_berry_new_binds ball_berry_gs) in Hm as (_ & ? & ?).
  - by apply penman_monteith_leaf_temperature_new_binds in Hm as (_ & ? & ?).
  - by apply (senescence_coefficient_logistic_new_binds exp) in Hm as (_ & ? & ?).
Qed.

Lemma module_library_names w :
  w ∈ module_library ball_berry_gs exp →
  NoDup (get_outputs w) ∧ ∀ n, n ∈ get_inputs w → n ∉ get_outputs w.
Proof.
  unfold module_library. rewrite !elem_of_cons, elem_of_nil.
  intros [->|[->|[->|[->|[]]]]]; (split; [|apply Forall_forall]);
    apply (bool_decide_unpack _); by vm_compute.
Qed.

End module_library.

(** ** thermal_time_linear *)

(** C5. On an instance of thermal_time_linear, evaluation returns normally
    and leaves in the output slot TTc the value 0 when [temp <= tbase] and
    [(temp - tbase) / 24] otherwise.  With temp = 15 and tbase = 10 that is
    the double nearest to 5/24 (0.2083333...), and with temp = 5 and
    tbase = 10 it is 0 exactly. *)
Theorem thermal_time_linear_TTc ip op h0 m h (temp tbase : float) :
  outcome (thermal_time_linear.new ip op h0) = Ok m →
  h !! (ip, "temp") = Some temp →
  h !! (ip, "tbase") = Some tbase →
  let r := thermal_time_linear.do_operation m h in
  let TTc := final_heap r !! (op, "TTc") in
  thermal_time_linear.get_outputs = ["TTc"]
  ∧ outcome r = Ok tt
  ∧ ((temp <=? tbase)%float = true → TTc = Some 0%float)
  ∧ ((temp <=? tbase)%float = false → TTc = Some ((temp - tbase) / 24)%float)
  ∧ (temp = 15%float → tbase = 10%float →
     TTc = Some 0x1.aaaaaaaaaaaabp-3%float
     ∧ (0x1.aaaaap-3 <? 0x1.aaaaaaaaaaaabp-3)%float = true
     ∧ (0x1.aaaaaaaaaaaabp-3 <? 0x1.aaaabp-3)%float = true)
  ∧ (temp = 5%float → tbase = 10%float → TTc = Some 0%float).
Proof.
  intros Hm Htemp Htbase.
  apply thermal_time_linear_new_binds in Hm as (-> & _).
  cbv zeta. unfold thermal_time_linear.do_operation, final_heap, outcome.
  unfold mbind, M_bind, deref, update, read.
  cbv beta iota zeta delta [fst snd thermal_time_linear.temp thermal_time_linear.tbase
                              thermal_time_linear.TTc_op].
  rewrite Htemp, Htbase, lookup_insert_eq. cbn.
  split_and!; try done.
  - by intros ->.
  - by intros ->.
  - by intros -> ->.
  - by intros -> ->.
Qed.

Lemma thermal_time_linear_TTc_witness :
  let h : heap :=
    <[(0, "temp") := 15%float]> (<[(0, "tbase") := 10%float]> (store_with 1 ["TTc"] 3%float)) in
  let m := {| thermal_time_linear.temp := (0, "temp");
              thermal_time_linear.tbase := (0, "tbase");
              thermal_time_linear.TTc_op := (1, "TTc") |} in
  final_heap (thermal_time_linear.do_operation m h) !! (1, "TTc")
  = Some 0x1.aaaaaaaaaaaabp-3%float.
Proof.
  intros h m.
  destruct (thermal_time_linear_TTc 0 1 h m h 15%float 10%float)
    as (_ & _ & _ & _ & H & _);
    [by vm_compute..|].
  exact (proj1 (H eq_refl eq_refl)).
Defined.

(** ** Declared interface, frame and purity *)

(** C6. For every module class of the library and every successful
    construction on an input store and an output store: the slots bound
    from the input store are exactly the declared inputs ([get_inputs]) in
    that store, the slots bound in the output store are exactly the declared
    outputs ([get_outputs]), and every evaluation returns normally having
    written exactly the declared output slots.  The writes are writes to
    the store: an evaluation is the writing of one value per declared
    output, in the declared order, to the store it started from, so that
    afterwards every declared output slot holds the value written to it
    (also when the store held none before) and every other entry of every
    state map is as it was.  The reads are reads of the declared inputs: the
    values written are the same on any two stores that agree on the declared
    input slots. *)
Theorem declared_interface_is_actual ball_berry_gs exp w ip op h m :
  w ∈ module_library ball_berry_gs exp →
  outcome (createModule w ip op h) = Ok m →
  list_to_set (bound_inputs (events (createModule w ip op h)))
    =@{gset slot} list_to_set (input_slots w ip)
  ∧ list_to_set (bound_outputs (events (createModule w ip op h)))
    =@{gset slot} list_to_set (output_slots w op)
  ∧ ∀ h', outcome (do_operation w m h') = Ok tt
          ∧ list_to_set (written (events (do_operation w m h')))
            =@{gset slot} list_to_set (output_slots w op)
          ∧ (∃ vs, length vs = length (get_outputs w)
               ∧ do_operation w m h' = update_all (output_slots w op) vs h'
               ∧ ∀ i n, get_outputs w !! i = Some n →
                   ∃ v, vs !! i = Some v
                        ∧ final_heap (do_operation w m h') !! (op, n) = Some v)
          ∧ (∀ p, p ∉ output_slots w op →
               final_heap (do_operation w m h') !! p = h' !! p)
          ∧ (∀ h'', (∀ n, n ∈ get_inputs w → h'' !! (ip, n) = h' !! (ip, n)) →
               events (do_operation w m h'') = events (do_operation w m h')).
Proof.
  intros Hw Hm.
  destruct (module_library_binds _ _ w ip op h m Hw Hm) as [_ ->].
  rewrite bound_inputs_of_binding, bound_outputs_of_binding.
  split_and!; [done..|]. intros h'.
  destruct (module_library_evaluates _ _ w Hw) as [F HF].
  destruct (module_library_names _ _ w Hw) as [Hnd _].
  assert (constructed w ip op m) as Hc by (by exists h).
  split_and!.
  - apply (evaluates_as_outcome w F HF ip op m Hc).
  - by rewrite (evaluates_as_written w F HF ip op m Hc).
  - exists (F (λ n, read h' (ip, n))). split_and!.
    + apply HF.
    + by apply HF.
    + intros i n Hn.
      destruct (lookup_lt_is_Some_2 (F (λ n, read h' (ip, n))) i) as [v Hv].
      { rewrite (proj1 HF). by eapply lookup_lt_Some. }
      exists v. split; [done|].
      by rewrite (evaluates_as_output w F HF ip op m Hc h' i n Hnd Hn).
  - apply (evaluates_as_frame w F HF ip op m Hc).
  - intros h'' Hagree. destruct HF as (_ & Hext & Hrun).
    rewrite !(Hrun ip op m Hc).
    rewrite (Hext (λ n, read h'' (ip, n)) (λ n, read h' (ip, n))).
    + apply update_all_events_heap.
    + intros n Hn. unfold read. by rewrite Hagree.
Qed.

Lemma declared_interface_is_actual_witness :
  let w := ball_berry_wrapper example_gs in
  let h := store_with 0 (get_inputs w) 1%float ∪ store_with 1 (get_outputs w) 0%float in
  list_to_set (bound_inputs (events (createModule w 0 1 h)))
    =@{gset slot} list_to_set (input_slots w 0).
Proof.
  intros w h.
  destruct (outcome (createModule w 0 1 h)) as [m|e] eqn:Hm;
    [|by vm_compute in Hm].
  refine (proj1 (declared_interface_is_actual example_gs example_exp w 0 1 h m _ Hm)).
  unfold module_library. rewrite !elem_of_cons. right. left. reflexivity.
Defined.

(** C7. For every module class of the library, every instance and every
    heap: evaluation leaves every entry whose name is not a declared output
    as it was (in every state map), and indeed every entry other than the
    declared output slots of the instance's output store.  In particular
    ball_berry writes leaf_stomatal_conductance only, and
    penman_monteith_leaf_temperature writes leaf_temperature only. *)
Theorem evaluation_frame ball_berry_gs exp w ip op m h :
  w ∈ module_library ball_berry_gs exp →
  constructed w ip op m →
  (∀ p : slot, p.2 ∉ get_outputs w → final_heap (do_operation w m h) !! p = h !! p)
  ∧ (∀ p : slot, p ∉ output_slots w op → final_heap (do_operation w m h) !! p = h !! p)
  ∧ (w = ball_berry_wrapper ball_berry_gs →
     written (events (do_operation w m h)) = [(op, "leaf_stomatal_conductance")])
  ∧ (w = penman_monteith_leaf_temperature_wrapper →
     written (events (do_operation w m h)) = [(op, "leaf_temperature")]).
Proof.
  intros Hw Hm. destruct (module_library_evaluates _ _ w Hw) as [F HF].
  assert (∀ p : slot, p ∉ output_slots w op →
            final_heap (do_operation w m h) !! p = h !! p) as Hframe
    by (intros p; apply (evaluates_as_frame w F HF ip op m Hm)).
  split_and!; [|done|..].
  - intros p Hp. apply Hframe. unfold output_slots.
    intros (n & -> & ?)%list_elem_of_fmap. by apply Hp.
  - intros ->. by rewrite (evaluates_as_written _ F HF ip op m Hm).
  - intros ->. by rewrite (evaluates_as_written _ F HF ip op m Hm).
Qed.

Lemma evaluation_frame_witness :
  let w := ball_berry_wrapper example_gs in
  let h := store_with 0 (get_inputs w) 1%float ∪ store_with 0 (get_outputs w) 0%float in
  let m := {| ball_berry.net_assimilation_rate := (0, "net_assimilation_rate");
              ball_berry.ambient_c := (0, "Catm");
              ball_berry.ambient_rh := (0, "rh");
              ball_berry.b0 := (0, "b0");
              ball_berry.b1 := (0, "b1");
              ball_berry.gbw := (0, "gbw");
              ball_berry.leaf_temperature := (0, "leaf_temperature");
              ball_berry.ambient_air_temperature := (0, "temp");
              ball_berry.leaf_stomatal_conductance_op := (0, "leaf_stomatal_conductance") |} in
  final_heap (do_operation w m h) !! (0, "leaf_temperature") = h !! (0, "leaf_temperature")
  ∧ written (events (do_operation w m h)) = [(0, "leaf_stomatal_conductance")].
Proof.
  intros w h m.
  destruct (evaluation_frame example_gs example_exp w 0 0 m h) as (H1 & _ & H2 & _).
  - unfold module_library. rewrite !elem_of_cons. right. left. reflexivity.
  - exists h. by vm_compute.
  - split; [apply H1; apply (bool_decide_unpack _); by vm_compute|by apply H2].
Defined.

(** C3. For every steady module class of the library (ball_berry,
    penman_monteith_leaf_temperature, senescence_coefficient_logistic): two
    evaluations, of any two instances on any two heaps whose input stores
    hold the same values under the declared input names, leave the same
    values in the declared output slots; and evaluating an instance again
    right after an evaluation repeats it exactly (same writes, same heap).
    The library functions [ball_berry_gs] and [exp] enter as functions. *)
Theorem steady_modules_are_pure ball_berry_gs exp w :
  w ∈ module_library ball_berry_gs exp →
  is_steady (base w) = true →
  (∀ ip1 op1 m1 ip2 op2 m2 (h1 h2 : heap),
     constructed w ip1 op1 m1 →
     constructed w ip2 op2 m2 →
     (∀ n, n ∈ get_inputs w → h1 !! (ip1, n) = h2 !! (ip2, n)) →
     ∀ n, n ∈ get_outputs w →
       final_heap (do_operation w m1 h1) !! (op1, n)
       = final_heap (do_operation w m2 h2) !! (op2, n))
  ∧ (∀ ip op m h,
       constructed w ip op m →
       do_operation w m (final_heap (do_operation w m h)) = do_operation w m h).
Proof.
  intros Hw _. destruct (module_library_evaluates _ _ w Hw) as [F HF].
  destruct (module_library_names _ _ w Hw) as [Hnd Hdisj]. split.
  - intros ip1 op1 m1 ip2 op2 m2 h1 h2 Hm1 Hm2 Hin n [i Hi]%list_elem_of_lookup.
    rewrite (evaluates_as_output w F HF ip1 op1 m1 Hm1 h1 i n Hnd Hi).
    rewrite (evaluates_as_output w F HF ip2 op2 m2 Hm2 h2 i n Hnd Hi).
    f_equal. destruct HF as (_ & Hext & _). apply Hext.
    intros n' Hn'. unfold read. by rewrite Hin.
  - intros ip op m h Hm. by apply (evaluates_as_again w F HF ip op).
Qed.

Lemma steady_modules_are_pure_witness :
  let w := senescence_coefficient_logistic_wrapper example_exp in
  let h := store_with 0 (get_inputs w) 2%float ∪ store_with 1 (get_outputs w) 0%float
           ∪ store_with 2 (get_inputs w) 2%float ∪ store_with 3 (get_outputs w) 5%float in
  ∃ m1 m2,
    outcome (createModule w 0 1 h) = Ok m1
    ∧ outcome (createModule w 2 3 h) = Ok m2
    ∧ final_heap (do_operation w m1 h) !! (1, "kSeneLeaf")
      = final_heap (do_operation w m2 h) !! (3, "kSeneLeaf").
Proof.
  intros w h.
  destruct (outcome (createModule w 0 1 h)) as [m1|e] eqn:H1;
    [|by vm_compute in H1].
  destruct (outcome (createModule w 2 3 h)) as [m2|e] eqn:H2;
    [|by vm_compute in H2].
  exists m1, m2. split_and!; [done..|].
  refine (proj1 (steady_modules_are_pure example_gs example_exp w _ _)
            0 1 m1 2 3 m2 h h _ _ _ "kSeneLeaf" _).
  - unfold module_library. rewrite !elem_of_cons. do 3 right. left. reflexivity.
  - reflexivity.
  - by exists h.
  - by exists h.
  - apply Forall_forall.
    change (get_inputs w) with senescence_coefficient_logistic.get_inputs.
    unfold senescence_coefficient_logistic.get_inputs.
    repeat (apply Forall_cons; split; [by vm_compute|]). constructor.
  - apply (bool_decide_unpack _). by vm_compute.
Defined.

(** ** lightME *)

(** C9. With the sun at or below the horizon ([cosine_zenith_angle <= 0]),
    [lightME] returns direct transmittance 0, diffuse transmittance 1,
    direct fraction 0 and diffuse fraction 1, whatever the pressure, the
    atmospheric transmittance and the scattering factor are (and whatever
    [pow] and the sea-level pressure are). *)
Theorem lightME_sun_below_horizon pow atmospheric_pressure_at_sea_level
    (cosine_zenith_angle atmospheric_pressure
     atmospheric_transmittance atmospheric_scattering : float) :
  (cosine_zenith_angle <=? 0)%float = true →
  lightME pow atmospheric_pressure_at_sea_level cosine_zenith_angle
    atmospheric_pressure atmospheric_transmittance atmospheric_scattering
  = {| direct_transmittance := 0;
       diffuse_transmittance := 1;
       direct_fraction := 0;
       diffuse_fraction := 1 |}.
Proof. intros Hcos. unfold lightME. rewrite Hcos. reflexivity. Qed.

Lemma lightME_sun_below_horizon_witness :
  lightME example_pow 0x1.8bcdp+16 (-0x1p-1) 100000 0x1.b333333333333p-1 0x1.3333333333333p-2
  = {| direct_transmittance := 0;
       diffuse_transmittance := 1;
       direct_fraction := 0;
       diffuse_fraction := 1 |}.
Proof. apply lightME_sun_below_horizon. reflexivity. Defined.

(** ** integrator::integrate *)

(** C1. When the integrator checks adaptive compatibility and the system
    reports that it is not compatible, [integrate] returns what the fallback
    handler returns and does not depend on the stepping algorithm at all.
    In every other case (no check, or a compatible system) [integrate]
    returns what the stepping algorithm returns on the system with its call
    counter reset to zero, and does not depend on the fallback handler. *)
Theorem integrate_dispatch {S R : Type}
    (do_integrate handle_adaptive_incompatibility : integrator.method S R)
    (this : integrator.t) (sys : integrator.dynamical_system S) :
  let called :=
    {| integrator.check_adaptive_compatible := integrator.check_adaptive_compatible this;
       integrator.integrate_method_has_been_called := true |} in
  (integrator.check_adaptive_compatible this = true →
   integrator.is_adaptive_compatible sys = false →
   integrator.integrate do_integrate handle_adaptive_incompatibility this sys
   = handle_adaptive_incompatibility called sys
   ∧ ∀ stepper : integrator.method S R,
       integrator.integrate stepper handle_adaptive_incompatibility this sys
       = integrator.integrate do_integrate handle_adaptive_incompatibility this sys)
  ∧ (integrator.check_adaptive_compatible this = false
     ∨ integrator.is_adaptive_compatible sys = true →
     integrator.integrate do_integrate handle_adaptive_incompatibility this sys
     = do_integrate called (integrator.reset_ncalls sys)
     ∧ integrator.ncalls (integrator.reset_ncalls sys) = 0%Z
     ∧ ∀ handler : integrator.method S R,
         integrator.integrate do_integrate handler this sys
         = integrator.integrate do_integrate handle_adaptive_incompatibility this sys).
Proof.
  cbv zeta. unfold integrator.integrate. cbn [integrator.check_adaptive_compatible].
  split.
  - intros -> ->. done.
  - intros [->| ->]; [done|]. by rewrite andb_false_r.
Qed.

(** C8. On the fallback path the handler receives the system as it was
    given, its call counter not reset: a handler reporting the counter it
    sees reports the caller's value.  On the normal path the stepping
    algorithm sees the counter at zero.  On both paths the member function
    run sees [integrate_method_has_been_called] set. *)
Theorem integrate_counter_and_flag {S : Type}
    (this : integrator.t) (sys : integrator.dynamical_system S) :
  let called :=
    {| integrator.check_adaptive_compatible := integrator.check_adaptive_compatible this;
       integrator.integrate_method_has_been_called := true |} in
  let counter : integrator.method S Z :=
    λ i s, (Ok (integrator.ncalls s), i, s) in
  let flag : integrator.method S bool :=
    λ i s, (Ok (integrator.integrate_method_has_been_called i), i, s) in
  (integrator.check_adaptive_compatible this = true →
   integrator.is_adaptive_compatible sys = false →
   (∀ stepper, integrator.integrate stepper counter this sys
               = (Ok (integrator.ncalls sys), called, sys))
   ∧ ∀ stepper, integrator.integrate stepper flag this sys = (Ok true, called, sys))
  ∧ (integrator.check_adaptive_compatible this = false
     ∨ integrator.is_adaptive_compatible sys = true →
     (∀ handler, integrator.integrate counter handler this sys
                 = (Ok 0%Z, called, integrator.reset_ncalls sys))
     ∧ ∀ handler, integrator.integrate flag handler this sys
                  = (Ok true, called, integrator.reset_ncalls sys)).
Proof.
  cbv zeta. unfold integrator.integrate. cbn [integrator.check_adaptive_compatible].
  split.
  - intros -> ->. done.
  - intros [->| ->]; [done|]. by rewrite andb_false_r.
Qed.

Lemma integrate_dispatch_witness :
  let this := {| integrator.check_adaptive_compatible := true;
                 integrator.integrate_method_has_been_called := false |} in
  let called := {| integrator.check_adaptive_compatible := true;
                   integrator.integrate_method_has_been_called := true |} in
  let stiff := {| integrator.ncalls := 7;
                  integrator.adaptive_compatible := false;
                  integrator.quantities := tt |} in
  let smooth := {| integrator.ncalls := 7;
                   integrator.adaptive_compatible := true;
                   integrator.quantities := tt |} in
  integrator.integrate example_stepper example_handler this stiff
  = (Err (out_of_range "not adaptive compatible"), called, stiff)
  ∧ integrator.integrate example_stepper example_handler this smooth
    = (Ok 0%Z, called, integrator.reset_ncalls smooth).
Proof.
  intros this called stiff smooth. split.
  - exact (proj1 (proj1 (integrate_dispatch example_stepper example_handler this stiff)
                    eq_refl eq_refl)).
  - exact (proj1 (proj2 (integrate_dispatch example_stepper example_handler this smooth)
                    (or_intror eq_refl))).
Defined.

Lemma integrate_counter_and_flag_witness :
  let this := {| integrator.check_adaptive_compatible := true;
                 integrator.integrate_method_has_been_called := false |} in
  let called := {| integrator.check_adaptive_compatible := true;
                   integrator.integrate_method_has_been_called := true |} in
  let stiff := {| integrator.ncalls := 7;
                  integrator.adaptive_compatible := false;
                  integrator.quantities := tt |} in
  integrator.integrate example_handler example_stepper this stiff = (Ok 7%Z, called, stiff).
Proof.
  intros this called stiff.
  exact (proj1 (proj1 (integrate_counter_and_flag this stiff) eq_refl eq_refl)
           example_handler).
Defined.

(** ** SystemSolverFactory *)

Lemma get_solvers_lookup name :
  name ∈ SystemSolverFactory.get_solvers
  ↔ is_Some (SystemSolverFactory.system_solver_creators !! name).
Proof.
  unfold SystemSolverFactory.get_solvers. rewrite list_elem_of_fmap. split.
  - intros ([n c] & -> & Hin). apply elem_of_map_to_list in Hin. by exists c.
  - intros [c Hc]. exists (name, c). split; [done|]. by apply elem_of_map_to_list.
Qed.

Lemma get_solvers_names :
  SystemSolverFactory.get_solvers
  = ["Gro_euler_odeint"; "Gro_euler"; "Gro_rkck54"; "Gro_rk4"; "Gro_rsnbrk"; "Gro"].
Proof. by vm_compute. Qed.

(** C4. For every string that is not a registered solver name, the factory
    throws, and the message of the exception is the offending string between
    double quotes followed by a fixed text: it contains the exact string.
    So it is for DoesNotExist. *)
Theorem unknown_solver_name_fails (system_solver_name : string)
    (step_size rel_error_tolerance abs_error_tolerance : float) (max_steps : Z) :
  system_solver_name ∉ SystemSolverFactory.get_solvers →
  SystemSolverFactory.call system_solver_name
    step_size rel_error_tolerance abs_error_tolerance max_steps
  = Err (out_of_range (SystemSolverFactory.message system_solver_name))
  ∧ (∃ before after,
       SystemSolverFactory.message system_solver_name
       = before +:+ system_solver_name +:+ after)
  ∧ ("DoesNotExist" ∉ SystemSolverFactory.get_solvers)
  ∧ SystemSolverFactory.message "DoesNotExist"
    = SystemSolverFactory.double_quote +:+ "DoesNotExist"
      +:+ SystemSolverFactory.double_quote
      +:+ " was given as a system_solver name, but no system_solver with that name could be found."
      +:+ SystemSolverFactory.newline +:+ ".".
Proof.
  intros Hname. split_and!.
  - rewrite get_solvers_lookup, <-eq_None_not_Some in Hname.
    unfold SystemSolverFactory.call, SystemSolverFactory.at_. by rewrite Hname.
  - by eexists _, _.
  - rewrite get_solvers_names. apply (bool_decide_unpack _). by vm_compute.
  - by vm_compute.
Qed.

Lemma unknown_solver_name_fails_witness :
  SystemSolverFactory.call "DoesNotExist" 1 0x1p-13 0x1p-13 200
  = Err (out_of_range (SystemSolverFactory.message "DoesNotExist")).
Proof.
  refine (proj1 (unknown_solver_name_fails "DoesNotExist" 1 0x1p-13 0x1p-13 200 _)).
  rewrite get_solvers_names. apply (bool_decide_unpack _). by vm_compute.
Defined.

(** C10. [get_solvers] returns the six registered names, each once, and the
    factory called with any of them returns a solver (no exception), built
    from the given step size, tolerances and step limit. *)
Theorem registered_solvers
    (step_size rel_error_tolerance abs_error_tolerance : float) (max_steps : Z) :
  SystemSolverFactory.get_solvers
    ≡ₚ ["Gro"; "Gro_euler"; "Gro_euler_odeint"; "Gro_rsnbrk"; "Gro_rk4"; "Gro_rkck54"]
  ∧ ∀ name, name ∈ SystemSolverFactory.get_solvers →
      ∃ T, SystemSolverFactory.call name
             step_size rel_error_tolerance abs_error_tolerance max_steps
           = Ok {| SystemSolverFactory.class := T;
                   SystemSolverFactory.step_size := step_size;
                   SystemSolverFactory.rel_error_tolerance := rel_error_tolerance;
                   SystemSolverFactory.abs_error_tolerance := abs_error_tolerance;
                   SystemSolverFactory.max_steps := max_steps |}.
Proof.
  rewrite get_solvers_names. split.
  - apply (bool_decide_unpack _). by vm_compute.
  - intros name Hname. rewrite !elem_of_cons, elem_of_nil in Hname.
    destruct Hname as [->|[->|[->|[->|[->|[->|[]]]]]]]; by eexists.
Qed.

(** ** Multilayer quantity names *)

Lemma string_app_nil (s : string) : EmptyString +:+ s = s.
Proof. reflexivity. Qed.

Lemma string_app_cons a (s1 s2 : string) : String a s1 +:+ s2 = String a (s1 +:+ s2).
Proof. reflexivity. Qed.

Lemma string_app_assoc (s1 s2 s3 : string) : (s1 +:+ s2) +:+ s3 = s1 +:+ s2 +:+ s3.
Proof.
  induction s1 as [|a s1 IH]; [done|]. rewrite !string_app_cons. by f_equal.
Qed.

Lemma string_length_app (s1 s2 : string) :
  String.length (s1 +:+ s2) = String.length s1 + String.length s2.
Proof.
  induction s1 as [|a s1 IH]; [done|]. rewrite string_app_cons. cbn. by f_equal.
Qed.

Lemma string_app_inj_r (s1 s2 t : string) : s1 +:+ t = s2 +:+ t → s1 = s2.
Proof.
  revert s2. induction s1 as [|c s1 IH]; intros [|c' s2] H;
    rewrite ?string_app_nil, ?string_app_cons in H.
  - done.
  - apply (f_equal String.length) in H. cbn in H. rewrite string_length_app in H. lia.
  - apply (f_equal String.length) in H. cbn in H. rewrite string_length_app in H. lia.
  - injection H as -> H. f_equal. by apply IH.
Qed.

Lemma occurs_app c (s1 s2 : string) : occurs c (s1 +:+ s2) = occurs c s1 || occurs c s2.
Proof.
  induction s1 as [|a s1 IH]; [done|]. rewrite string_app_cons. cbn.
  by rewrite IH, orb_assoc.
Qed.

(** A string is cut in one way only at its last occurrence of a character. *)
Lemma string_cut_last c (s1 s2 d1 d2 : string) :
  occurs c d1 = false → occurs c d2 = false →
  s1 +:+ String c d1 = s2 +:+ String c d2 → s1 = s2 ∧ d1 = d2.
Proof.
  intros Hd1 Hd2. revert s2.
  induction s1 as [|a s1 IH]; intros [|b s2] H;
    rewrite ?string_app_nil, ?string_app_cons in H.
  - by injection H.
  - injection H as <- ->. rewrite occurs_app in Hd1. cbn in Hd1.
    rewrite bool_decide_eq_true_2, orb_true_r in Hd1 by done. done.
  - injection H as -> <-. rewrite occurs_app in Hd2. cbn in Hd2.
    rewrite bool_decide_eq_true_2, orb_true_r in Hd2 by done. done.
  - injection H as -> H. destruct (IH _ H) as [-> ->]. done.
Qed.

Lemma pretty_N_go_occurs c x (s : string) :
  (∀ d, (d < 10)%N → pretty_N_char d ≠ c) →
  occurs c (pretty_N_go x s) = occurs c s.
Proof.
  intros Hc. revert s. induction (N.lt_wf_0 x) as [x _ IH]; intros s.
  destruct (decide (x = 0)%N) as [->|Hx]; [by rewrite pretty_N_go_0|].
  rewrite pretty_N_go_step by lia. rewrite IH by (apply N.div_lt; lia).
  cbn. rewrite bool_decide_eq_false_2; [done|].
  apply Hc. by apply N.mod_lt.
Qed.

Lemma pretty_layer_no_underscore (k : Z) : (0 ≤ k)%Z → occurs "_" (pretty k) = false.
Proof.
  intros Hk. destruct k as [|p|p]; [done| |lia].
  unfold pretty, pretty_Z, pretty, pretty_positive, pretty, pretty_N.
  rewrite decide_False by done. rewrite pretty_N_go_occurs; [done|].
  intros d Hd. unfold pretty_N_char. by repeat case_match.
Qed.

Lemma pretty_N_go_leading_digit x (s : string) :
  (0 < x)%N → ∃ c rest, pretty_N_go x s = String c rest ∧ c ≠ "0"%char.
Proof.
  revert s. induction (N.lt_wf_0 x) as [x _ IH]; intros s Hx.
  rewrite pretty_N_go_step by done.
  destruct (decide (x < 10)%N) as [Hlt|Hge].
  - rewrite N.div_small, pretty_N_go_0, N.mod_small by done.
    eexists _, _. split; [done|].
    assert (x = 1 ∨ x = 2 ∨ x = 3 ∨ x = 4 ∨ x = 5 ∨ x = 6
            ∨ x = 7 ∨ x = 8 ∨ x = 9)%N
      as [->|[->|[->|[->|[->|[->|[->|[->| ->]]]]]]]] by lia; done.
  - apply IH; [apply N.div_lt; lia|]. apply N.div_str_pos. lia.
Qed.

(** Decimal printing does not pad: a positive layer index does not start
    with the digit 0. *)
Lemma pretty_layer_not_padded (k : Z) :
  (0 < k)%Z → ∃ c rest, pretty k = String c rest ∧ c ≠ "0"%char.
Proof.
  intros Hk. destruct k as [|p|p]; [lia| |lia].
  unfold pretty, pretty_Z, pretty, pretty_positive, pretty, pretty_N.
  rewrite decide_False by done. by apply pretty_N_go_leading_digit.
Qed.

Lemma add_layer_suffix_cut (k : Z) (name : string) :
  add_layer_suffix_to_quantity_name k name
  = (name +:+ "_layer") +:+ String "_" (pretty k).
Proof. unfold add_layer_suffix_to_quantity_name. by rewrite string_app_assoc. Qed.

(** The layer-suffixed name determines the name and the layer. *)
Lemma add_layer_suffix_inj (k1 k2 : Z) (name1 name2 : string) :
  (0 ≤ k1)%Z → (0 ≤ k2)%Z →
  add_layer_suffix_to_quantity_name k1 name1 = add_layer_suffix_to_quantity_name k2 name2 →
  k1 = k2 ∧ name1 = name2.
Proof.
  intros Hk1 Hk2. rewrite !add_layer_suffix_cut.
  intros [Hname Hk]%string_cut_last; [|by apply pretty_layer_no_underscore..].
  split; [by apply (inj pretty)|by apply string_app_inj_r in Hname].
Qed.

Lemma length_bind_const {A B} (f : A → list B) (l : list A) n :
  (∀ x, length (f x) = n) → length (l ≫= f) = length l * n.
Proof.
  intros Hf. induction l as [|x l IH]; [done|].
  rewrite bind_cons, length_app, Hf, IH. cbn. lia.
Qed.

Lemma multiclass_multilayer_names_length nlayers prefixes base_name :
  length (multiclass_multilayer_names nlayers prefixes base_name)
  = Z.to_nat nlayers * length prefixes.
Proof.
  unfold multiclass_multilayer_names.
  rewrite (length_bind_const _ _ (length prefixes)).
  - by rewrite length_seqZ.
  - intros i. rewrite (length_bind_const _ _ 1); [lia|done].
Qed.

Lemma pure_multilayer_names_length nlayers base_name :
  length (pure_multilayer_names nlayers base_name) = Z.to_nat nlayers.
Proof.
  unfold pure_multilayer_names. rewrite (length_bind_const _ _ 1); [|done].
  rewrite length_seqZ. lia.
Qed.

Lemma multiclass_multilayer_names_elem nlayers prefixes base_name name :
  name ∈ multiclass_multilayer_names nlayers prefixes base_name
  ↔ ∃ prefix k,
      prefix ∈ prefixes ∧ (0 ≤ k < nlayers)%Z
      ∧ name = prefix +:+ base_name +:+ "_layer_" +:+ pretty k.
Proof.
  unfold multiclass_multilayer_names, add_layer_suffix_to_quantity_name.
  rewrite list_elem_of_bind. setoid_rewrite list_elem_of_bind.
  setoid_rewrite list_elem_of_singleton. setoid_rewrite elem_of_seqZ.
  setoid_rewrite string_app_assoc.
  split.
  - intros (k & (c & -> & Hc) & Hk). exists c, k. split_and!; done || lia.
  - intros (c & k & Hc & Hk & ->). exists k. split; [by exists c|lia].
Qed.

Lemma pure_multilayer_names_elem nlayers base_name name :
  name ∈ pure_multilayer_names nlayers base_name
  ↔ ∃ k, (0 ≤ k < nlayers)%Z ∧ name = base_name +:+ "_layer_" +:+ pretty k.
Proof.
  unfold pure_multilayer_names, add_layer_suffix_to_quantity_name.
  rewrite list_elem_of_bind. setoid_rewrite list_elem_of_singleton.
  setoid_rewrite elem_of_seqZ.
  split.
  - intros (k & -> & Hk). exists k. split; [lia|done].
  - intros (k & Hk & ->). exists k. split; [done|lia].
Qed.

Lemma multiclass_multilayer_names_NoDup nlayers prefixes base_name :
  NoDup prefixes →
  NoDup (multiclass_multilayer_names nlayers prefixes base_name).
Proof.
  intros Hnd. unfold multiclass_multilayer_names. apply NoDup_bind.
  - intros k1 k2 name Hk1%elem_of_seqZ Hk2%elem_of_seqZ.
    rewrite !list_elem_of_bind. setoid_rewrite list_elem_of_singleton.
    intros (c1 & -> & _) (c2 & H & _).
    by apply add_layer_suffix_inj in H as [? _]; [|lia..].
  - intros k Hk%elem_of_seqZ. apply NoDup_bind; [| |done].
    + intros c1 c2 name _ _ ->%list_elem_of_singleton H%list_elem_of_singleton.
      apply add_layer_suffix_inj in H as [_ H]; [|lia..].
      by apply string_app_inj_r in H.
    + intros c _. apply NoDup_singleton.
  - apply NoDup_seqZ.
Qed.

Lemma pure_multilayer_names_NoDup nlayers base_name :
  NoDup (pure_multilayer_names nlayers base_name).
Proof.
  unfold pure_multilayer_names. apply NoDup_bind.
  - intros k1 k2 name Hk1%elem_of_seqZ Hk2%elem_of_seqZ
      ->%list_elem_of_singleton H%list_elem_of_singleton.
    by apply add_layer_suffix_inj in H as [? _]; [|lia..].
  - intros k _. apply NoDup_singleton.
  - apply NoDup_seqZ.
Qed.

(** ** The constructor of multilayer_canopy_properties *)

Lemma M_bind_unfold {A B} (f : A → M B) (c : M A) h :
  (c ≫= f) h
  = match c h with
    | (Ok a, h', t) => let '(r, h'', t') := f a h' in (r, h'', t ++ t')
    | (Err e, h', t) => (Err e, h', t)
    end.
Proof. reflexivity. Qed.

Lemma get_op_cases op name h :
  get_op op name h = (Err (UnknownQuantity name), h, [])
  ∨ get_op op name h = (Ok (op, name), h, [Bound_output (op, name)]).
Proof. unfold get_op. destruct (h !! _); auto. Qed.

(** Binding one output pointer per layer either throws, or binds the
    layer-suffixed names in layer order and leaves the heap as it was. *)
Lemma get_multilayer_op_binds op nlayers name h :
  let ps := pair op <$> pure_multilayer_names nlayers name in
  (∃ e t, get_multilayer_op op nlayers name h = (Err e, h, t))
  ∨ get_multilayer_op op nlayers name h = (Ok ps, h, Bound_output <$> ps).
Proof.
  cbv zeta. unfold get_multilayer_op, pure_multilayer_names.
  induction (seqZ 0 nlayers) as [|i l IH]; [by right|].
  cbn [mapM]. rewrite !M_bind_unfold.
  destruct (get_op_cases op (add_layer_suffix_to_quantity_name i name) h) as [->| ->];
    [left; by eexists _, _|].
  rewrite !M_bind_unfold.
  destruct IH as [(e & t & ->)| ->]; [left; by eexists _, _|].
  right. cbv beta iota zeta. unfold mret, M_ret. by rewrite app_nil_r.
Qed.

Lemma bound_outputs_app t1 t2 :
  bound_outputs (t1 ++ t2) = bound_outputs t1 ++ bound_outputs t2.
Proof. apply omap_app. Qed.

Lemma bound_outputs_outputs ps : bound_outputs (Bound_output <$> ps) = ps.
Proof. induction ps as [|p ps IH]; [done|]. cbn. by f_equal. Qed.

(** A successful construction binds, in the output store, exactly the
    layer-suffixed names of the ten output base names. *)
Lemma multilayer_canopy_properties_new_binds module_name nlayers ip op h m :
  outcome (multilayer_canopy_properties.new module_name nlayers ip op h) = Ok m →
  bound_outputs (events (multilayer_canopy_properties.new module_name nlayers ip op h))
  = pair op <$>
      (base_name ←
         [ "sunlit_incident_par"; "sunlit_fraction"; "shaded_incident_par";
           "shaded_fraction"; "incident_scattered_par"; "incident_average_par";
           "height"; "rh"; "windspeed"; "LeafN" ];
       pure_multilayer_names nlayers base_name).
Proof.
  unfold multilayer_canopy_properties.new. bindings h.
  repeat match goal with
    | |- context [get_multilayer_op op nlayers ?name h] =>
        destruct (get_multilayer_op_binds op nlayers name h) as [(e & t & ->)| ->];
        [by intros|]
    end.
  intros _. unfold events. cbn [snd mbind list_bind foldr].
  rewrite !bound_outputs_app, !bound_outputs_outputs, !fmap_app. reflexivity.
Qed.

(** The names the constructor binds for the two leaf classes of a base name
    are the generated multiclass names, up to order. *)
Lemma multiclass_multilayer_names_two_classes nlayers prefix1 prefix2 base_name :
  multiclass_multilayer_names nlayers [prefix1; prefix2] base_name
  ≡ₚ pure_multilayer_names nlayers (prefix1 +:+ base_name)
     ++ pure_multilayer_names nlayers (prefix2 +:+ base_name).
Proof.
  unfold multiclass_multilayer_names, pure_multilayer_names.
  induction (seqZ 0 nlayers) as [|i l IH]; [done|].
  rewrite !bind_cons. cbn [mbind list_bind foldr app]. rewrite IH.
  cbn. f_equiv. by rewrite Permutation_middle.
Qed.

(** So the output names the constructor binds are, up to order, the names
    generated for the multiclass base names incident_par and fraction over
    the leaf classes sunlit and shaded, and for the six pure-multilayer base
    names. *)
Lemma multilayer_canopy_properties_output_names nlayers :
  (base_name ←
     [ "sunlit_incident_par"; "sunlit_fraction"; "shaded_incident_par";
       "shaded_fraction"; "incident_scattered_par"; "incident_average_par";
       "height"; "rh"; "windspeed"; "LeafN" ];
   pure_multilayer_names nlayers base_name)
  ≡ₚ (base_name ← ["incident_par"; "fraction"];
      multiclass_multilayer_names nlayers
        (leaf_class_prefix <$> ["sunlit"; "shaded"]) base_name)
     ++ (base_name ←
           [ "incident_scattered_par"; "incident_average_par";
             "height"; "rh"; "windspeed"; "LeafN" ];
         pure_multilayer_names nlayers base_name).
Proof.
  cbn [mbind list_bind foldr fmap list_fmap].
  rewrite !multiclass_multilayer_names_two_classes.
  change (leaf_class_prefix "sunlit" +:+ "incident_par") with "sunlit_incident_par".
  change (leaf_class_prefix "shaded" +:+ "incident_par") with "shaded_incident_par".
  change (leaf_class_prefix "sunlit" +:+ "fraction") with "sunlit_fraction".
  change (leaf_class_prefix "shaded" +:+ "fraction") with "shaded_fraction".
  rewrite !app_nil_r. solve_Permutation.
Qed.

(** ** All generated names together *)

Lemma drop_chars_app (n : nat) (s t : string) :
  drop_chars (String.length s + n) (s +:+ t) = drop_chars n t.
Proof. induction s as [|c s IH]; [done|]. by rewrite string_app_cons. Qed.

(** A string that is at least as long as [t] ends with [t] exactly when it
    does so behind any prefix. *)
Lemma ends_with_app (t s u : string) :
  String.length t ≤ String.length u → ends_with t (s +:+ u) = ends_with t u.
Proof.
  intros Hlen. unfold ends_with. rewrite string_length_app.
  replace (String.length s + String.length u - String.length t)
    with (String.length s + (String.length u - String.length t)) by lia.
  by rewrite drop_chars_app.
Qed.

Lemma bind_singleton_fmap {A B} (f : A → B) (l : list A) : (x ← l; [f x]) = f <$> l.
Proof. induction l as [|x l IH]; [done|]. by rewrite bind_cons, IH. Qed.

Lemma bind_cons_Permutation {A B} (a : A → B) (r : A → list B) (l : list A) :
  (x ← l; a x :: r x) ≡ₚ (a <$> l) ++ (x ← l; r x).
Proof.
  induction l as [|x l IH]; [done|].
  rewrite !bind_cons, fmap_cons, IH. cbn. f_equiv.
  by rewrite !app_assoc, (Permutation_app_comm (r x)).
Qed.

Lemma bind_nil_const {A B} (l : list A) : (x ← l; @nil B) = [].
Proof. induction l as [|x l IH]; [done|]. by rewrite bind_cons, IH. Qed.

(** The multiclass names of a base name are the pure names of the base name
    under each prefix, up to order. *)
Lemma multiclass_multilayer_names_by_class nlayers prefixes base_name :
  multiclass_multilayer_names nlayers prefixes base_name
  ≡ₚ (prefix ← prefixes; pure_multilayer_names nlayers (prefix +:+ base_name)).
Proof.
  unfold multiclass_multilayer_names, pure_multilayer_names.
  induction (seqZ 0 nlayers) as [|i l IH].
  - induction prefixes as [|p ps IHp]; [done|]. by rewrite bind_cons, <- IHp.
  - rewrite bind_cons, IH, bind_singleton_fmap.
    symmetry.
    etrans; [|apply (bind_cons_Permutation
             (λ p, add_layer_suffix_to_quantity_name i (p +:+ base_name))
             (λ p, j ← l; [add_layer_suffix_to_quantity_name j (p +:+ base_name)]))].
    reflexivity.
Qed.

Lemma generated_output_names_by_quantity nlayers prefixes multiclass pure :
  generated_output_names nlayers prefixes multiclass pure
  ≡ₚ (name ← quantity_names prefixes multiclass pure;
      pure_multilayer_names nlayers name).
Proof.
  unfold generated_output_names, quantity_names. rewrite bind_app. f_equiv.
  induction multiclass as [|b bs IH]; [done|].
  rewrite !bind_cons, bind_app, IH, multiclass_multilayer_names_by_class. f_equiv.
  clear IH. induction prefixes as [|p ps IHp]; [done|].
  rewrite !bind_cons, bind_app, IHp. f_equiv.
  cbn. by rewrite app_nil_r.
Qed.

Lemma output_names_NoDup (nlayers : Z) (base_names : list string) :
  NoDup base_names →
  NoDup (base_name ← base_names; pure_multilayer_names nlayers base_name).
Proof.
  intros Hnd. apply NoDup_bind; [|intros; apply pure_multilayer_names_NoDup|done].
  intros b1 b2 name _ _ (k1 & Hk1 & ->)%pure_multilayer_names_elem
    (k2 & Hk2 & H)%pure_multilayer_names_elem.
  apply (add_layer_suffix_inj k1 k2 b1 b2) in H as [_ ?]; [done|lia..].
Qed.

Lemma output_names_NoDup_inv (nlayers : Z) (base_names : list string) :
  (0 < nlayers)%Z →
  NoDup (base_name ← base_names; pure_multilayer_names nlayers base_name) →
  NoDup base_names.
Proof.
  intros Hn. induction base_names as [|b bs IH]; [constructor|].
  rewrite bind_cons. intros (_ & Hdisj & Hbs)%NoDup_app.
  apply NoDup_cons. split; [|by apply IH].
  intros Hb. apply (Hdisj (b +:+ "_layer_" +:+ pretty 0%Z)).
  - apply pure_multilayer_names_elem. exists 0%Z. split; [lia|done].
  - apply list_elem_of_bind. exists b. split; [|done].
    apply pure_multilayer_names_elem. exists 0%Z. split; [lia|done].
Qed.

(** Generated names collide exactly when quantity names do. *)
Lemma generated_output_names_NoDup nlayers prefixes multiclass pure :
  (0 < nlayers)%Z →
  NoDup (generated_output_names nlayers prefixes multiclass pure)
  ↔ NoDup (quantity_names prefixes multiclass pure).
Proof.
  intros Hn. rewrite generated_output_names_by_quantity. split.
  - by apply output_names_NoDup_inv.
  - apply output_names_NoDup.
Qed.

Lemma generated_output_names_length nlayers prefixes multiclass pure :
  length (generated_output_names nlayers prefixes multiclass pure)
  = length multiclass * (Z.to_nat nlayers * length prefixes)
    + length pure * Z.to_nat nlayers.
Proof.
  unfold generated_output_names. rewrite length_app. f_equal.
  - apply length_bind_const. intros b. apply multiclass_multilayer_names_length.
  - apply length_bind_const. intros b. apply pure_multilayer_names_length.
Qed.

Lemma ends_with_suffix (s t : string) : ends_with t (s +:+ t) = true.
Proof.
  rewrite ends_with_app by done. unfold ends_with. rewrite Nat.sub_diag.
  apply bool_decide_eq_true_2. by destruct t.
Qed.

(** The quantity names of the class are distinct under any distinct
    prefixes: the two base names of the per-class outputs end differently,
    and no base name of a layer-only output ends with one of them. *)
Lemma declared_quantity_names_NoDup (prefixes : list string) :
  NoDup prefixes →
  NoDup (quantity_names prefixes define_multiclass_multilayer_outputs
           define_pure_multilayer_outputs).
Proof.
  intros Hnd. unfold quantity_names, define_multiclass_multilayer_outputs.
  cbn [mbind list_bind foldr]. rewrite app_nil_r.
  change (foldr ?f [] ?l) with (mbind f l). rewrite !bind_singleton_fmap.
  assert (∀ b, NoDup ((λ p, p +:+ b) <$> prefixes)) as Hfmap.
  { intros b. apply NoDup_fmap_2; [|done]. intros p1 p2. apply string_app_inj_r. }
  assert (∀ b name, name ∈ define_pure_multilayer_outputs → ends_with b name = false →
            name ∉ (λ p, p +:+ b) <$> prefixes) as Hpure.
  { intros b name _ Hends (p & -> & _)%list_elem_of_fmap.
    by rewrite ends_with_suffix in Hends. }
  apply NoDup_app. split_and!.
  - apply NoDup_app. split_and!; [apply Hfmap| |apply Hfmap].
    intros name (p1 & -> & _)%list_elem_of_fmap (p2 & H & _)%list_elem_of_fmap.
    assert (ends_with "r" (p1 +:+ "incident_par") = ends_with "r" (p2 +:+ "fraction"))
      as Hr by (by rewrite H).
    by rewrite !ends_with_app in Hr by (cbn; lia).
  - intros name Hname Hin. apply elem_of_app in Hname as [Hname|Hname]; revert Hname;
      apply Hpure; try done; revert name Hin; apply Forall_forall;
      apply (bool_decide_unpack _); by vm_compute.
  - apply (bool_decide_unpack _). by vm_compute.
Qed.

(** C2.  For every layer count [nlayers > 0], every set of leaf-class
    prefixes (given as a list without repetition) and every base name, the
    generator produces exactly [nlayers * |leaf_classes|] names for a
    multiclass-multilayer base name and exactly [nlayers] names for a
    pure-multilayer base name; the names are exactly those of the form
    [<leaf_class_prefix><base_name>_layer_<k>], respectively
    [<base_name>_layer_<k>], with [0 <= k < nlayers] printed in decimal
    without padding (0 is printed as 0, and a positive index does not start
    with the digit 0); and no two names generated for a base name collide.
    For incident_par, leaf classes sunlit and shaded and ten layers these
    are the twenty names sunlit_incident_par_layer_0..9 and
    shaded_incident_par_layer_0..9.  Across base names: for any lists of
    base names the generator produces [nlayers * |leaf_classes|] names per
    multiclass base name and [nlayers] per pure base name, and two of all
    these names collide exactly when two quantity names (prefix and base
    name, before the layer suffix) do; for the base names of the class
    (incident_par and fraction by leaf class, six by layer only) no two of
    all generated names collide, whatever the set of prefixes; and the
    output names a successful constructor of multilayer_canopy_properties
    binds are, up to order, the names generated for these base names and
    the leaf classes sunlit and shaded. *)
Theorem multilayer_names_generated (nlayers : Z) (leaf_class_prefixes : list string)
    (base_name : string) :
  (0 < nlayers)%Z →
  NoDup leaf_class_prefixes →
  let multiclass := multiclass_multilayer_names nlayers leaf_class_prefixes base_name in
  let pure := pure_multilayer_names nlayers base_name in
  let generated := generated_output_names nlayers leaf_class_prefixes in
  Z.of_nat (length multiclass) = (nlayers * Z.of_nat (length leaf_class_prefixes))%Z
  ∧ Z.of_nat (length pure) = nlayers
  ∧ (∀ name, name ∈ multiclass
       ↔ ∃ prefix k,
           prefix ∈ leaf_class_prefixes ∧ (0 ≤ k < nlayers)%Z
           ∧ name = prefix +:+ base_name +:+ "_layer_" +:+ pretty k)
  ∧ (∀ name, name ∈ pure
       ↔ ∃ k, (0 ≤ k < nlayers)%Z ∧ name = base_name +:+ "_layer_" +:+ pretty k)
  ∧ (pretty 0%Z = "0"
     ∧ ∀ k, (0 < k)%Z → ∃ c rest, pretty k = String c rest ∧ c ≠ "0"%char)
  ∧ NoDup multiclass
  ∧ NoDup pure
  ∧ multiclass_multilayer_names 10
      (leaf_class_prefix <$> ["sunlit"; "shaded"]) "incident_par"
    ≡ₚ [ "sunlit_incident_par_layer_0"; "sunlit_incident_par_layer_1";
         "sunlit_incident_par_layer_2"; "sunlit_incident_par_layer_3";
         "sunlit_incident_par_layer_4"; "sunlit_incident_par_layer_5";
         "sunlit_incident_par_layer_6"; "sunlit_incident_par_layer_7";
         "sunlit_incident_par_layer_8"; "sunlit_incident_par_layer_9";
         "shaded_incident_par_layer_0"; "shaded_incident_par_layer_1";
         "shaded_incident_par_layer_2"; "shaded_incident_par_layer_3";
         "shaded_incident_par_layer_4"; "shaded_incident_par_layer_5";
         "shaded_incident_par_layer_6"; "shaded_incident_par_layer_7";
         "shaded_incident_par_layer_8"; "shaded_incident_par_layer_9" ]
  ∧ (∀ multiclass_outputs pure_outputs,
       Z.of_nat (length (generated multiclass_outputs pure_outputs))
       = (Z.of_nat (length multiclass_outputs)
            * (nlayers * Z.of_nat (length leaf_class_prefixes))
          + Z.of_nat (length pure_outputs) * nlayers)%Z
       ∧ (NoDup (generated multiclass_outputs pure_outputs)
          ↔ NoDup (quantity_names leaf_class_prefixes multiclass_outputs pure_outputs)))
  ∧ NoDup (generated define_multiclass_multilayer_outputs define_pure_multilayer_outputs)
  ∧ (∀ module_name ip op h m,
       outcome (multilayer_canopy_properties.new module_name nlayers ip op h) = Ok m →
       bound_outputs (events (multilayer_canopy_properties.new module_name nlayers ip op h))
       ≡ₚ pair op <$>
            generated_output_names nlayers (leaf_class_prefix <$> define_leaf_classes)
              define_multiclass_multilayer_outputs define_pure_multilayer_outputs).
Proof.
  intros Hn Hnd. cbv zeta. split_and!.
  - rewrite multiclass_multilayer_names_length. lia.
  - rewrite pure_multilayer_names_length. lia.
  - apply multiclass_multilayer_names_elem.
  - apply pure_multilayer_names_elem.
  - done.
  - apply pretty_layer_not_padded.
  - by apply multiclass_multilayer_names_NoDup.
  - apply pure_multilayer_names_NoDup.
  - apply (bool_decide_unpack _). by vm_compute.
  - intros multiclass_outputs pure_outputs. split.
    + rewrite generated_output_names_length. lia.
    + by apply generated_output_names_NoDup.
  - apply generated_output_names_NoDup; [done|].
    by apply declared_quantity_names_NoDup.
  - intros module_name ip op h m Hm.
    rewrite (multilayer_canopy_properties_new_binds _ _ _ _ _ _ Hm).
    apply fmap_Permutation, multilayer_canopy_properties_output_names.
Qed.

Lemma multilayer_names_generated_witness :
  let names :=
    multiclass_multilayer_names 10
      (leaf_class_prefix <$> ["sunlit"; "shaded"]) "incident_par" in
  Z.of_nat (length names) = 20%Z ∧ NoDup names.
Proof.
  intros names.
  destruct (multilayer_names_generated 10
              (leaf_class_prefix <$> ["sunlit"; "shaded"]) "incident_par")
    as (Hlen & _ & _ & _ & _ & Hnd & _).
  - lia.
  - apply (bool_decide_unpack _). by vm_compute.
  - by split.
Defined.

(** The leaf classes have to be distinct: on a list that repeats a prefix
    the generator repeats names. *)
Lemma multilayer_names_collide_on_repeated_class :
  let names := multiclass_multilayer_names 1 ["sunlit_"; "sunlit_"] "incident_par" in
  names = ["sunlit_incident_par_layer_0"; "sunlit_incident_par_layer_0"]
  ∧ Z.of_nat (length names) = (1 * Z.of_nat (length ["sunlit_"; "sunlit_"]))%Z
  ∧ ¬ NoDup names.
Proof.
  cbv zeta. split_and!; [by vm_compute..|].
  apply (bool_decide_unpack _). by vm_compute.
Qed.

(** * Further properties *)

(** ** Arithmetic of doubles on zeros, infinities and NaN *)

Lemma Prim2SF_nan (x : float) : Prim2SF x = S754_nan → x = nan.
Proof. intros H. apply Prim2SF_inj. by rewrite H. Qed.

Lemma unbounded_nan : unbounded nan.
Proof. by left. Qed.

Lemma eqb_zero (x : float) : (x =? 0)%float = true → is_zero x.
Proof.
  rewrite FloatAxioms.eqb_spec. change (Prim2SF 0) with (S754_zero false).
  unfold is_zero. destruct (Prim2SF x) as [s|s| |s m e]; cbn; try done; eauto.
  - by destruct s.
  - by destruct s.
Qed.

(** What the operations give when an operand is a zero, an infinity or NaN
    is read off the first lines of their specifications. *)
Ltac float_cases :=
  unfold unbounded, is_zero in *;
  rewrite ?FloatAxioms.add_spec, ?FloatAxioms.sub_spec, ?FloatAxioms.mul_spec,
    ?FloatAxioms.div_spec;
  unfold SF64add, SF64sub, SF64mul, SF64div, SFadd, SFsub, SFmul, SFdiv;
  repeat match goal with
    | H : _ ∨ _ |- _ => destruct H as [H|H]
    | H : ∃ _, _ |- _ => destruct H as [? H]
    | H : Prim2SF ?x = _ |- _ => rewrite H; clear H
    end;
  repeat match goal with
    | |- context [Prim2SF ?x] => destruct (Prim2SF x) as [[]|[]| |[] ? ?]
    | |- context [match ?b with true => _ | false => _ end] => is_var b; destruct b
    end;
  cbn; eauto.

Lemma unbounded_add_r (x y : float) : unbounded y → unbounded (x + y).
Proof. intros Hy. float_cases. Qed.

Lemma unbounded_add_l (x y : float) : unbounded x → unbounded (x + y).
Proof. intros Hx. float_cases. Qed.

Lemma unbounded_sub_l (x y : float) : unbounded x → unbounded (x - y).
Proof. intros Hx. float_cases. Qed.

Lemma unbounded_mul_r (x y : float) : unbounded y → unbounded (x * y).
Proof. intros Hy. float_cases. Qed.

Lemma unbounded_div_zero (x y : float) : is_zero y → unbounded (x / y).
Proof. intros Hy. float_cases. Qed.

Lemma div_unbounded (x y : float) : unbounded x → unbounded y → (x / y)%float = nan.
Proof. intros Hx Hy. apply Prim2SF_nan. float_cases. Qed.

Lemma add_nan_r (x : float) : (x + nan)%float = nan.
Proof. apply Prim2SF_nan. rewrite FloatAxioms.add_spec. change (Prim2SF nan) with S754_nan.
  unfold SF64add, SFadd. by destruct (Prim2SF x). Qed.

Lemma sub_nan_l (y : float) : (nan - y)%float = nan.
Proof. apply Prim2SF_nan. by rewrite FloatAxioms.sub_spec. Qed.

Lemma sub_nan_r (x : float) : (x - nan)%float = nan.
Proof. apply Prim2SF_nan. rewrite FloatAxioms.sub_spec. change (Prim2SF nan) with S754_nan.
  unfold SF64sub, SFsub. by destruct (Prim2SF x). Qed.

Lemma div_nan_l (y : float) : (nan / y)%float = nan.
Proof. apply Prim2SF_nan. by rewrite FloatAxioms.div_spec. Qed.

Lemma leb_nan_l (y : float) : (nan <=? y)%float = false.
Proof. by rewrite FloatAxioms.leb_spec. Qed.

Lemma leb_nan_r (x : float) : (x <=? nan)%float = false.
Proof. rewrite FloatAxioms.leb_spec. change (Prim2SF nan) with S754_nan.
  unfold SFleb, SFcompare. by destruct (Prim2SF x). Qed.

Lemma is_zero_mul_finite (x y : float) :
  is_zero x → (∃ s m e, Prim2SF y = S754_finite s m e) → is_zero (x * y).
Proof.
  intros [sx Hx] (s & m & e & Hy). unfold is_zero.
  rewrite FloatAxioms.mul_spec, Hx, Hy. by eexists.
Qed.

Lemma one_sub_zero (d : float) : is_zero d → (1 - d)%float = 1%float.
Proof.
  intros [s Hd]. apply Prim2SF_inj. by rewrite FloatAxioms.sub_spec, Hd.
Qed.

Lemma leb_zero_false (x : float) : (x <=? 0)%float = false → ¬ is_zero x.
Proof.
  rewrite FloatAxioms.leb_spec. intros H [s Hx]. by rewrite Hx in H.
Qed.

Lemma zero_mul_cases (x y : float) :
  is_zero x → ¬ is_zero y → is_zero (x * y) ∨ (x * y)%float = nan.
Proof.
  intros [sx Hx] Hy. unfold is_zero in *.
  destruct (Prim2SF y) as [sy|sy| |sy m e] eqn:Ey.
  - destruct Hy. by eexists.
  - right. apply Prim2SF_nan. by rewrite FloatAxioms.mul_spec, Hx, Ey.
  - right. apply Prim2SF_nan. by rewrite FloatAxioms.mul_spec, Hx, Ey.
  - left. rewrite FloatAxioms.mul_spec, Hx, Ey. by eexists.
Qed.

Lemma zero_div_zero_sum (d x : float) :
  is_zero d → is_zero x ∨ x = nan → (d / (d + x))%float = nan.
Proof.
  intros [sd Hd] [[sx Hx]| ->]; apply Prim2SF_nan.
  - rewrite FloatAxioms.div_spec, FloatAxioms.add_spec, Hd, Hx.
    by destruct sd, sx.
  - rewrite add_nan_r, FloatAxioms.div_spec, Hd. by destruct sd.
Qed.

Lemma finite_constant (c : float) s m e :
  Prim2SF c = S754_finite s m e → ∃ s m e, Prim2SF c = S754_finite s m e.
Proof. eauto. Qed.

(** ** Unguarded divisions *)

(** X1. penman_monteith_leaf_temperature divides by the stomatal conductance
    [gc] without a guard: when the input leaf_stomatal_conductance is a zero
    (of either sign), the leaf temperature written is NaN, whatever the
    other seven inputs are. *)
Theorem penman_monteith_closed_stomata (ip op : state_map_ptr) (h0 h : heap)
    (m : penman_monteith_leaf_temperature.t) (conductance : float) :
  outcome (penman_monteith_leaf_temperature.new ip op h0) = Ok m →
  h !! (ip, "leaf_stomatal_conductance") = Some conductance →
  (conductance =? 0)%float = true →
  final_heap (penman_monteith_leaf_temperature.do_operation m h) !! (op, "leaf_temperature")
  = Some nan.
Proof.
  intros Hm Hc Hzero.
  assert (constructed penman_monteith_leaf_temperature_wrapper ip op m) as Hw
    by (by exists h0).
  change (penman_monteith_leaf_temperature.do_operation m h)
    with (do_operation penman_monteith_leaf_temperature_wrapper m h).
  rewrite (evaluates_as_output penman_monteith_leaf_temperature_wrapper _
             penman_monteith_leaf_temperature_evaluates ip op m Hw h 0
             "leaf_temperature"); [|by apply (bool_decide_unpack _)|done].
  cbv beta zeta. unfold read. rewrite Hc. cbn. f_equal.
  set (gc := (conductance * penman_monteith_leaf_temperature.milli
              * penman_monteith_leaf_temperature.volume_of_one_mole_of_air)%float).
  assert (is_zero gc) as Hgc.
  { apply is_zero_mul_finite; [apply is_zero_mul_finite; [by apply eqb_zero|]|].
    - by apply (finite_constant _ false 0x10624dd2f1a9fc (-62)).
    - by apply (finite_constant _ false 0x18f9b13165d399 (-58)). }
  rewrite div_unbounded; [apply add_nan_r|..].
  - apply unbounded_sub_l, unbounded_mul_r, unbounded_add_r. by apply unbounded_div_zero.
  - apply unbounded_mul_r, unbounded_add_r, unbounded_mul_r, unbounded_add_r.
    by apply unbounded_div_zero.
Qed.

Lemma penman_monteith_closed_stomata_witness :
  let w := penman_monteith_leaf_temperature_wrapper in
  let h : heap :=
    <[(0, "leaf_stomatal_conductance") := 0%float]>
      (store_with 0 (get_inputs w) 2%float ∪ store_with 0 (get_outputs w) 20%float) in
  ∃ m, outcome (penman_monteith_leaf_temperature.new 0 0 h) = Ok m
       ∧ final_heap (penman_monteith_leaf_temperature.do_operation m h)
           !! (0, "leaf_temperature") = Some nan.
Proof.
  intros w h.
  destruct (outcome (penman_monteith_leaf_temperature.new 0 0 h)) as [m|e] eqn:Hm;
    [|by vm_compute in Hm].
  exists m. split; [done|].
  by apply (penman_monteith_closed_stomata 0 0 h h m 0%float).
Defined.

(** X2. lightME divides by the total transmittance without a guard: above
    the horizon (the test [cosine_zenith_angle <= 0] fails), when [pow]
    returns a zero direct transmittance and the scattering factor is a zero,
    the direct and the diffuse fraction are both NaN. *)
Theorem lightME_no_transmittance pow atmospheric_pressure_at_sea_level
    (cosine_zenith_angle atmospheric_pressure
     atmospheric_transmittance atmospheric_scattering : float) :
  (cosine_zenith_angle <=? 0)%float = false →
  (pow atmospheric_transmittance
     (atmospheric_pressure / atmospheric_pressure_at_sea_level / cosine_zenith_angle)
   =? 0)%float = true →
  (atmospheric_scattering =? 0)%float = true →
  let light :=
    lightME pow atmospheric_pressure_at_sea_level cosine_zenith_angle
      atmospheric_pressure atmospheric_transmittance atmospheric_scattering in
  direct_fraction light = nan ∧ diffuse_fraction light = nan.
Proof.
  intros Hcos Hd%eqb_zero Hs%eqb_zero. cbv zeta. unfold lightME. rewrite Hcos.
  cbn [direct_fraction diffuse_fraction].
  set (d := pow _ _) in *.
  assert ((d / (d + atmospheric_scattering * (1 - d) * cosine_zenith_angle))%float = nan)
    as ->.
  { apply zero_div_zero_sum; [done|]. rewrite one_sub_zero by done.
    apply zero_mul_cases; [|by apply leb_zero_false].
    apply is_zero_mul_finite; [done|]. by eexists _, _, _. }
  split; [done|]. apply sub_nan_r.
Qed.

Lemma lightME_no_transmittance_witness :
  let light := lightME example_pow 0x1.8bcdp+16 0x1p-1 100000 0 0 in
  direct_fraction light = nan ∧ diffuse_fraction light = nan.
Proof. by apply lightME_no_transmittance. Defined.

(** ** NaN inputs of thermal_time_linear *)

(** X3. thermal_time_linear does not clamp a NaN: when temp or tbase is NaN
    the comparison [temp <= tbase] fails and the rate written to TTc is
    NaN. *)
Theorem thermal_time_linear_nan (ip op : state_map_ptr) (h0 h : heap)
    (m : thermal_time_linear.t) (temp tbase : float) :
  outcome (thermal_time_linear.new ip op h0) = Ok m →
  h !! (ip, "temp") = Some temp →
  h !! (ip, "tbase") = Some tbase →
  temp = nan ∨ tbase = nan →
  final_heap (thermal_time_linear.do_operation m h) !! (op, "TTc") = Some nan.
Proof.
  intros Hm Htemp Htbase Hnan.
  assert (constructed thermal_time_linear_wrapper ip op m) as Hw by (by exists h0).
  change (thermal_time_linear.do_operation m h)
    with (do_operation thermal_time_linear_wrapper m h).
  rewrite (evaluates_as_output thermal_time_linear_wrapper _
             thermal_time_linear_evaluates ip op m Hw h 0 "TTc");
    [|by apply (bool_decide_unpack _)|done].
  cbv beta zeta. unfold read. rewrite Htemp, Htbase. cbn. f_equal.
  destruct Hnan as [-> | ->].
  - by rewrite leb_nan_l, sub_nan_l, div_nan_l.
  - by rewrite leb_nan_r, sub_nan_r, div_nan_l.
Qed.

Lemma thermal_time_linear_nan_witness :
  let h : heap :=
    <[(0, "temp") := nan]> (<[(0, "tbase") := 10%float]> (store_with 1 ["TTc"] 3%float)) in
  let m := {| thermal_time_linear.temp := (0, "temp");
              thermal_time_linear.tbase := (0, "tbase");
              thermal_time_linear.TTc_op := (1, "TTc") |} in
  final_heap (thermal_time_linear.do_operation m h) !! (1, "TTc") = Some nan.
Proof.
  intros h m.
  apply (thermal_time_linear_nan 0 1 h h m nan 10%float); [by vm_compute..|by left].
Defined.

(** ** Evaluation order *)

Lemma evaluates_as_inputs_fixed (w : module_wrapper)
    (F : (string → float) → list float) (ip : state_map_ptr) (h h' : heap) :
  evaluates_as w F →
  (∀ p, p ∈ input_slots w ip → h' !! p = h !! p) →
  F (λ n, read h' (ip, n)) = F (λ n, read h (ip, n)).
Proof.
  intros (_ & Hext & _) Hin. apply Hext. intros n Hn. unfold read.
  rewrite Hin; [done|]. unfold input_slots. by apply list_elem_of_fmap_2.
Qed.

(** The heap after [w1] then [w2], read at an output slot of [w1], when
    [w2] neither writes that slot nor any input of [w1]. *)
Lemma evaluates_as_then (w1 w2 : module_wrapper)
    (F1 F2 : (string → float) → list float)
    (ip1 op1 : state_map_ptr) (m1 : instance w1)
    (ip2 op2 : state_map_ptr) (m2 : instance w2) (h : heap) (i : nat) (n : string) :
  evaluates_as w1 F1 → evaluates_as w2 F2 →
  constructed w1 ip1 op1 m1 → constructed w2 ip2 op2 m2 →
  NoDup (get_outputs w1) →
  get_outputs w1 !! i = Some n →
  (op1, n) ∉ output_slots w2 op2 →
  (∀ p, p ∈ input_slots w1 ip1 → p ∉ output_slots w2 op2) →
  final_heap (do_operation w2 m2 (final_heap (do_operation w1 m1 h))) !! (op1, n)
  = F1 (λ n, read h (ip1, n)) !! i
  ∧ final_heap (do_operation w1 m1 (final_heap (do_operation w2 m2 h))) !! (op1, n)
    = F1 (λ n, read h (ip1, n)) !! i.
Proof.
  intros HF1 HF2 Hm1 Hm2 Hnd Hi Hout Hin. split.
  - rewrite (evaluates_as_frame w2 F2 HF2 ip2 op2 m2 Hm2) by done.
    by apply (evaluates_as_output w1 F1 HF1 ip1 op1 m1 Hm1).
  - rewrite (evaluates_as_output w1 F1 HF1 ip1 op1 m1 Hm1 _ i n Hnd Hi).
    f_equal. apply (evaluates_as_inputs_fixed w1 F1); [done|].
    intros p Hp. apply (evaluates_as_frame w2 F2 HF2 ip2 op2 m2 Hm2). by apply Hin.
Qed.

(** X4. Two modules of the library of which neither writes a slot the other
    reads or writes can be evaluated in either order: the heap after both is
    the same. *)
Theorem independent_modules_commute
    (ball_berry_gs : float → float → float → float → float → float → float → float → float)
    (exp : float → float) (w1 w2 : module_wrapper) (ip1 op1 ip2 op2 : state_map_ptr)
    (m1 : instance w1) (m2 : instance w2) (h : heap) :
  w1 ∈ module_library ball_berry_gs exp →
  w2 ∈ module_library ball_berry_gs exp →
  constructed w1 ip1 op1 m1 →
  constructed w2 ip2 op2 m2 →
  (∀ p, p ∈ output_slots w1 op1 →
        (p ∉ input_slots w2 ip2) ∧ (p ∉ output_slots w2 op2)) →
  (∀ p, p ∈ output_slots w2 op2 → p ∉ input_slots w1 ip1) →
  final_heap (do_operation w2 m2 (final_heap (do_operation w1 m1 h)))
  = final_heap (do_operation w1 m1 (final_heap (do_operation w2 m2 h))).
Proof.
  intros Hw1 Hw2 Hm1 Hm2 H12 H21.
  destruct (module_library_evaluates _ _ w1 Hw1) as [F1 HF1].
  destruct (module_library_evaluates _ _ w2 Hw2) as [F2 HF2].
  destruct (module_library_names _ _ w1 Hw1) as [Hnd1 _].
  destruct (module_library_names _ _ w2 Hw2) as [Hnd2 _].
  apply map_eq. intros p.
  destruct (decide (p ∈ output_slots w1 op1)) as [Hp1|Hp1];
    [|destruct (decide (p ∈ output_slots w2 op2)) as [Hp2|Hp2]].
  - destruct (H12 p Hp1) as [_ Hp2]. unfold output_slots in Hp1.
    apply list_elem_of_fmap in Hp1 as (n & -> & [i Hi]%list_elem_of_lookup).
    destruct (evaluates_as_then w1 w2 F1 F2 ip1 op1 m1 ip2 op2 m2 h i n)
      as [-> ->]; try done.
    intros q Hq1 Hq2. by apply (H21 q).
  - unfold output_slots in Hp2.
    apply list_elem_of_fmap in Hp2 as (n & -> & [i Hi]%list_elem_of_lookup).
    destruct (evaluates_as_then w2 w1 F2 F1 ip2 op2 m2 ip1 op1 m1 h i n)
      as [-> ->]; try done.
    intros q Hq2 Hq1. by destruct (H12 q Hq1).
  - rewrite (evaluates_as_frame w2 F2 HF2 ip2 op2 m2 Hm2) by done.
    rewrite (evaluates_as_frame w1 F1 HF1 ip1 op1 m1 Hm1) by done.
    rewrite (evaluates_as_frame w1 F1 HF1 ip1 op1 m1 Hm1) by done.
    by rewrite (evaluates_as_frame w2 F2 HF2 ip2 op2 m2 Hm2).
Qed.

Lemma independent_modules_commute_witness :
  let w1 := thermal_time_linear_wrapper in
  let w2 := senescence_coefficient_logistic_wrapper example_exp in
  let h : heap :=
    store_with 0 (get_inputs w1) 12%float ∪ store_with 0 (get_outputs w1) 0%float
    ∪ store_with 0 (get_inputs w2) 2%float ∪ store_with 0 (get_outputs w2) 0%float in
  ∃ m1 m2,
    outcome (createModule w1 0 0 h) = Ok m1
    ∧ outcome (createModule w2 0 0 h) = Ok m2
    ∧ final_heap (do_operation w2 m2 (final_heap (do_operation w1 m1 h)))
      = final_heap (do_operation w1 m1 (final_heap (do_operation w2 m2 h))).
Proof.
  intros w1 w2 h.
  destruct (outcome (createModule w1 0 0 h)) as [m1|e] eqn:H1; [|by vm_compute in H1].
  destruct (outcome (createModule w2 0 0 h)) as [m2|e] eqn:H2; [|by vm_compute in H2].
  exists m1, m2. split_and!; [done..|].
  apply (independent_modules_commute example_gs example_exp w1 w2 0 0 0 0 m1 m2 h).
  - unfold module_library. rewrite !elem_of_cons. left. reflexivity.
  - unfold module_library. rewrite !elem_of_cons. do 3 right. left. reflexivity.
  - by exists h.
  - by exists h.
  - apply Forall_forall. apply (bool_decide_unpack _). by vm_compute.
  - apply Forall_forall. apply (bool_decide_unpack _). by vm_compute.
Defined.

(** X5. penman_monteith_leaf_temperature and ball_berry on one shared store,
    evaluated in that order: the leaf temperature stored before the pass is
    irrelevant to the heap after it, and the conductance written by
    ball_berry is computed from the leaf temperature that
    penman_monteith_leaf_temperature has just written, the other seven
    arguments being read from the store as it was before the pass. *)
Theorem leaf_temperature_feeds_ball_berry
    (ball_berry_gs : float → float → float → float → float → float → float → float → float)
    (s : state_map_ptr) (h0 h0' h : heap)
    (mp : penman_monteith_leaf_temperature.t) (mb : ball_berry.t) :
  outcome (penman_monteith_leaf_temperature.new s s h0) = Ok mp →
  outcome (ball_berry.new s s h0') = Ok mb →
  let pass (h : heap) :=
    final_heap (ball_berry.do_operation ball_berry_gs mb
                  (final_heap (penman_monteith_leaf_temperature.do_operation mp h))) in
  (∀ stale, pass (<[(s, "leaf_temperature") := stale]> h) = pass h)
  ∧ ∃ fresh,
      final_heap (penman_monteith_leaf_temperature.do_operation mp h)
        !! (s, "leaf_temperature") = Some fresh
      ∧ pass h !! (s, "leaf_temperature") = Some fresh
      ∧ pass h !! (s, "leaf_stomatal_conductance")
        = Some (ball_berry_gs
                  (read h (s, "net_assimilation_rate")) (read h (s, "Catm"))
                  (read h (s, "rh")) (read h (s, "b0")) (read h (s, "b1"))
                  (read h (s, "gbw")) fresh (read h (s, "temp"))).
Proof.
  intros Hp Hb.
  apply penman_monteith_leaf_temperature_new_binds in Hp as (-> & _).
  apply (ball_berry_new_binds ball_berry_gs) in Hb as (-> & _).
  cbv zeta.
  unfold penman_monteith_leaf_temperature.do_operation, ball_berry.do_operation.
  unfold final_heap, mbind, M_bind, deref, update, read.
  cbv beta iota zeta delta [fst snd
    penman_monteith_leaf_temperature.slope_water_vapor_ip
    penman_monteith_leaf_temperature.psychrometric_parameter_ip
    penman_monteith_leaf_temperature.latent_heat_vaporization_of_water_ip
    penman_monteith_leaf_temperature.leaf_boundary_layer_conductance_ip
    penman_monteith_leaf_temperature.leaf_stomatal_conductance_ip
    penman_monteith_leaf_temperature.leaf_net_irradiance_ip
    penman_monteith_leaf_temperature.vapor_density_deficit_ip
    penman_monteith_leaf_temperature.temp_ip
    penman_monteith_leaf_temperature.leaf_temperature_op
    ball_berry.net_assimilation_rate ball_berry.ambient_c ball_berry.ambient_rh
    ball_berry.b0 ball_berry.b1 ball_berry.gbw ball_berry.leaf_temperature
    ball_berry.ambient_air_temperature ball_berry.leaf_stomatal_conductance_op].
  split.
  - intros stale. rewrite !lookup_insert_eq, !lookup_insert_ne by done.
    by rewrite insert_insert_eq.
  - eexists. split_and!.
    + apply lookup_insert_eq.
    + rewrite lookup_insert_ne by done. apply lookup_insert_eq.
    + by repeat (rewrite lookup_insert_eq || rewrite lookup_insert_ne by done).
Qed.

Lemma leaf_temperature_feeds_ball_berry_witness :
  let wp := penman_monteith_leaf_temperature_wrapper in
  let wb := ball_berry_wrapper example_gs in
  let h : heap :=
    store_with 0 (get_inputs wp) 2%float ∪ store_with 0 (get_inputs wb) 3%float in
  ∃ mp mb,
    outcome (penman_monteith_leaf_temperature.new 0 0 h) = Ok mp
    ∧ outcome (ball_berry.new 0 0 h) = Ok mb
    ∧ final_heap (ball_berry.do_operation example_gs mb
                    (final_heap (penman_monteith_leaf_temperature.do_operation mp
                                   (<[(0, "leaf_temperature") := 99%float]> h))))
      = final_heap (ball_berry.do_operation example_gs mb
                      (final_heap (penman_monteith_leaf_temperature.do_operation mp h))).
Proof.
  intros wp wb h.
  destruct (outcome (penman_monteith_leaf_temperature.new 0 0 h)) as [mp|e] eqn:Hp;
    [|by vm_compute in Hp].
  destruct (outcome (ball_berry.new 0 0 h)) as [mb|e] eqn:Hb; [|by vm_compute in Hb].
  exists mp, mb. split_and!; [done..|].
  exact (proj1 (leaf_temperature_feeds_ball_berry example_gs 0 h h h mp mb Hp Hb)
           99%float).
Defined.

(** ** Construction *)

(** The cases of a constructor run on [h]: each lookup either finds the
    entry or makes the constructor throw, naming the entry. *)
Ltac found h :=
  repeat match goal with
    | |- Forall _ [] => constructor
    | |- Forall _ (_ :: _) => apply Forall_cons; split; [by eexists|]
    end.

Ltac reports :=
  let ip := fresh "ip" in let op := fresh "op" in let h := fresh "h" in
  intros ip op h; unfold all_bound;
  cbn [createModule get_inputs get_outputs instance
       thermal_time_linear_wrapper ball_berry_wrapper
       penman_monteith_leaf_temperature_wrapper
       senescence_coefficient_logistic_wrapper];
  unfold thermal_time_linear.new, ball_berry.new, penman_monteith_leaf_temperature.new,
    senescence_coefficient_logistic.new,
    thermal_time_linear.get_inputs, ball_berry.get_inputs,
    penman_monteith_leaf_temperature.get_inputs,
    senescence_coefficient_logistic.get_inputs,
    thermal_time_linear.get_outputs, ball_berry.get_outputs,
    penman_monteith_leaf_temperature.get_outputs,
    senescence_coefficient_logistic.get_outputs,
    get_ip, get_input, get_op, mbind, M_bind, mret, M_ret, outcome, final_heap;
  repeat match goal with
    | |- context [h !! (?a, String ?c ?s)] =>
        let E := fresh "E" in
        destruct (h !! (a, String c s)) eqn:E;
        [|cbv beta iota zeta delta [fst snd];
          split_and!; try done; try (by apply (bool_decide_unpack _));
          apply Forall_forall; found h]
    end;
  cbv beta iota zeta delta [fst snd];
  split_and!; [done|apply Forall_forall; found h..].

Lemma thermal_time_linear_reports : construction_reports thermal_time_linear_wrapper.
Proof. reports. Qed.

Lemma ball_berry_reports gs : construction_reports (ball_berry_wrapper gs).
Proof. reports. Qed.

Lemma penman_monteith_leaf_temperature_reports :
  construction_reports penman_monteith_leaf_temperature_wrapper.
Proof. reports. Qed.

Lemma senescence_coefficient_logistic_reports exp :
  construction_reports (senescence_coefficient_logistic_wrapper exp).
Proof. reports. Qed.


Section construction.

Variable ball_berry_gs :
  float → float → float → float → float → float → float → float → float.

Variable exp : float → float.

Lemma module_library_reports (w : module_wrapper) :
  w ∈ module_library ball_berry_gs exp → construction_reports w.
Proof.
  unfold module_library. rewrite !elem_of_cons, elem_of_nil.
  intros [->|[->|[->|[->|[]]]]].
  - apply thermal_time_linear_reports.
  - apply ball_berry_reports.
  - apply penman_monteith_leaf_temperature_reports.
  - apply senescence_coefficient_logistic_reports.
Qed.

End construction.

(** X6. For every module class of the library, the constructor never
    changes the heap; it returns exactly when every declared input is in the
    input store and every declared output in the output store; and when it
    throws, the exception names a declared name that the store lacks. *)
Theorem construction_succeeds_iff_bound
    (ball_berry_gs : float → float → float → float → float → float → float → float → float)
    (exp : float → float) (w : module_wrapper) (ip op : state_map_ptr) (h : heap) :
  w ∈ module_library ball_berry_gs exp →
  final_heap (createModule w ip op h) = h
  ∧ ((∃ m, outcome (createModule w ip op h) = Ok m) ↔ all_bound w ip op h)
  ∧ ∀ e, outcome (createModule w ip op h) = Err e →
      (∃ n, e = MissingInput n ∧ n ∈ get_inputs w ∧ h !! (ip, n) = None)
      ∨ (∃ n, e = UnknownQuantity n ∧ n ∈ get_outputs w ∧ h !! (op, n) = None).
Proof.
  intros Hw. destruct (module_library_reports _ _ w Hw ip op h) as [Hheap Hout].
  split; [done|].
  destruct (outcome (createModule w ip op h)) as [m|[what|n|n]]; try done.
  - split; [|done]. split; [done|]. by exists m.
  - destruct Hout as [Hn Hnone]. split.
    + split; [by intros [? ?]|]. intros [Hin _].
      destruct (Hin n Hn) as [v Hv]. congruence.
    + intros e [= <-]. left. by exists n.
  - destruct Hout as (Hn & Hnone & _). split.
    + split; [by intros [? ?]|]. intros [_ Hop].
      destruct (Hop n Hn) as [v Hv]. congruence.
    + intros e [= <-]. right. by exists n.
Qed.

Lemma construction_succeeds_iff_bound_witness :
  let w := thermal_time_linear_wrapper in
  let h := store_with 0 ["temp"] 15%float ∪ store_with 1 ["TTc"] 0%float in
  ¬ ∃ m, outcome (createModule w 0 1 h) = Ok m.
Proof.
  intros w h Hm.
  destruct (construction_succeeds_iff_bound example_gs example_exp w 0 1 h)
    as (_ & Hiff & _).
  - unfold module_library. rewrite !elem_of_cons. left. reflexivity.
  - apply Hiff in Hm as [Hin _]. destruct (Hin "tbase") as [v Hv].
    + apply (bool_decide_unpack _). by vm_compute.
    + by vm_compute in Hv.
Defined.

(** ** senescence_coefficient_logistic, organ by organ *)

(** X7. Each of the four coefficients kSeneStem, kSeneLeaf, kSeneRoot and
    kSeneRhizome depends only on DVI and on the rate, alpha and beta of its
    own organ: two evaluations on heaps that agree on these four inputs
    write the same coefficient for that organ, whatever the nine other
    inputs are. *)
Theorem senescence_organs_are_separate (exp : float → float)
    (ip op : state_map_ptr) (h0 h1 h2 : heap)
    (m : senescence_coefficient_logistic.t) (organ : string) :
  outcome (senescence_coefficient_logistic.new ip op h0) = Ok m →
  organ ∈ ["Stem"; "Leaf"; "Root"; "Rhizome"] →
  (∀ n, n ∈ ["DVI"; "rateSene" +:+ organ; "alphaSene" +:+ organ; "betaSene" +:+ organ] →
        h1 !! (ip, n) = h2 !! (ip, n)) →
  final_heap (senescence_coefficient_logistic.do_operation exp m h1)
    !! (op, "kSene" +:+ organ)
  = final_heap (senescence_coefficient_logistic.do_operation exp m h2)
      !! (op, "kSene" +:+ organ).
Proof.
  intros Hm Horgan Hagree.
  assert (constructed (senescence_coefficient_logistic_wrapper exp) ip op m) as Hw
    by (by exists h0).
  pose proof (senescence_coefficient_logistic_evaluates exp) as HF.
  assert (NoDup (get_outputs (senescence_coefficient_logistic_wrapper exp))) as Hnd
    by (by apply (bool_decide_unpack _)).
  change (senescence_coefficient_logistic.do_operation exp m)
    with (do_operation (senescence_coefficient_logistic_wrapper exp) m).
  apply Forall_forall in Hagree.
  repeat (apply Forall_cons in Hagree as [? Hagree]).
  rewrite !elem_of_cons, elem_of_nil in Horgan.
  destruct Horgan as [->|[->|[->|[->|[]]]]];
    cbv [String.append] in *.
  - rewrite !(evaluates_as_output _ _ HF ip op m Hw _ 0 "kSeneStem") by done.
    cbv beta. unfold read. by repeat match goal with E : _ = _ |- _ => rewrite E; clear E end.
  - rewrite !(evaluates_as_output _ _ HF ip op m Hw _ 1 "kSeneLeaf") by done.
    cbv beta. unfold read. by repeat match goal with E : _ = _ |- _ => rewrite E; clear E end.
  - rewrite !(evaluates_as_output _ _ HF ip op m Hw _ 2 "kSeneRoot") by done.
    cbv beta. unfold read. by repeat match goal with E : _ = _ |- _ => rewrite E; clear E end.
  - rewrite !(evaluates_as_output _ _ HF ip op m Hw _ 3 "kSeneRhizome") by done.
    cbv beta. unfold read. by repeat match goal with E : _ = _ |- _ => rewrite E; clear E end.
Qed.

Lemma senescence_organs_are_separate_witness :
  let w := senescence_coefficient_logistic_wrapper example_exp in
  let h1 : heap :=
    store_with 0 (get_inputs w) 2%float ∪ store_with 1 (get_outputs w) 0%float in
  let h2 : heap :=
    <[(0, "rateSeneStem") := 7%float]> (<[(0, "alphaSeneRoot") := 9%float]> h1) in
  ∃ m, outcome (senescence_coefficient_logistic.new 0 1 h1) = Ok m
       ∧ final_heap (senescence_coefficient_logistic.do_operation example_exp m h1)
           !! (1, "kSeneLeaf")
         = final_heap (senescence_coefficient_logistic.do_operation example_exp m h2)
             !! (1, "kSeneLeaf").
Proof.
  intros w h1 h2.
  destruct (outcome (senescence_coefficient_logistic.new 0 1 h1)) as [m|e] eqn:Hm;
    [|by vm_compute in Hm].
  exists m. split; [done|].
  apply (senescence_organs_are_separate example_exp 0 1 h1 h1 h2 m "Leaf" Hm).
  - apply (bool_decide_unpack _). by vm_compute.
  - apply Forall_forall. repeat (apply Forall_cons; split; [by vm_compute|]).
    constructor.
Defined.

(** ** The members of multilayer_canopy_properties *)

Lemma pure_multilayer_names_fmap (nlayers : Z) (base_name : string) :
  pure_multilayer_names nlayers base_name
  = (λ i, add_layer_suffix_to_quantity_name i base_name) <$> seqZ 0 nlayers.
Proof.
  unfold pure_multilayer_names. induction (seqZ 0 nlayers) as [|i l IH]; [done|].
  rewrite bind_cons, IH. done.
Qed.

Lemma pure_multilayer_names_lookup (nlayers i : Z) (base_name : string) :
  (0 ≤ i < nlayers)%Z →
  pure_multilayer_names nlayers base_name !! Z.to_nat i
  = Some (base_name +:+ "_layer_" +:+ pretty i).
Proof.
  intros Hi. rewrite pure_multilayer_names_fmap, list_lookup_fmap.
  rewrite lookup_seqZ_lt by lia.
  replace (0 + Z.of_nat (Z.to_nat i))%Z with i by lia. done.
Qed.

(** The record a successful construction returns. *)
Lemma multilayer_canopy_properties_new_members
    (module_name : string) (nlayers : Z) (ip op : state_map_ptr) (h : heap)
    (m : multilayer_canopy_properties.t) :
  outcome (multilayer_canopy_properties.new module_name nlayers ip op h) = Ok m →
  multilayer_canopy_properties.module_name m = module_name
  ∧ multilayer_canopy_properties.nlayers m = nlayers
  ∧ multilayer_inputs m
    = pair ip <$>
        [ "par_incident_direct"; "par_incident_diffuse"; "absorptivity_par"; "lai";
          "cosine_zenith_angle"; "kd"; "chil"; "heightf"; "rh"; "windspeed";
          "LeafN"; "kpLN"; "lnfun"; "par_energy_content" ]
  ∧ multilayer_ops m
    = (λ base_name, (base_name, pair op <$> pure_multilayer_names nlayers base_name))
        <$> [ "sunlit_incident_par"; "sunlit_fraction"; "shaded_incident_par";
              "shaded_fraction"; "incident_scattered_par"; "incident_average_par";
              "height"; "rh"; "windspeed"; "LeafN" ].
Proof.
  unfold multilayer_canopy_properties.new. bindings h.
  repeat match goal with
    | |- context [get_multilayer_op op nlayers ?name h] =>
        destruct (get_multilayer_op_binds op nlayers name h) as [(e & t & ->)| ->];
        [by intros|]
    end.
  cbn. by intros [= <-].
Qed.

(** X8. After a successful construction of multilayer_canopy_properties with
    a layer count [nlayers >= 0]: each of the ten vectors of output pointers
    has [nlayers] entries, entry [i] pointing to the entry [<base>_layer_<i>]
    of the output store; and the [10 * nlayers] pointers are pairwise
    distinct, so no write through one of them is seen through another. *)
Theorem multilayer_canopy_properties_pointers
    (module_name : string) (nlayers : Z) (ip op : state_map_ptr) (h : heap)
    (m : multilayer_canopy_properties.t) :
  outcome (multilayer_canopy_properties.new module_name nlayers ip op h) = Ok m →
  (0 ≤ nlayers)%Z →
  (∀ base_name ops, (base_name, ops) ∈ multilayer_ops m →
     Z.of_nat (length ops) = nlayers
     ∧ ∀ i, (0 ≤ i < nlayers)%Z →
         ops !! Z.to_nat i = Some (op, base_name +:+ "_layer_" +:+ pretty i))
  ∧ Z.of_nat (length (mjoin (multilayer_ops m).*2)) = (10 * nlayers)%Z
  ∧ NoDup (mjoin (multilayer_ops m).*2).
Proof.
  intros (_ & _ & _ & Hops)%multilayer_canopy_properties_new_members Hn.
  rewrite Hops. split_and!.
  - intros base_name ops (b & [= -> ->] & _)%list_elem_of_fmap. split.
    + rewrite length_fmap, pure_multilayer_names_length. lia.
    + intros i Hi. by rewrite list_lookup_fmap, pure_multilayer_names_lookup.
  - cbn [fmap list_fmap snd mjoin list_join foldr]. rewrite !length_app, !length_fmap.
    rewrite !pure_multilayer_names_length. cbn. lia.
  - assert (NoDup (pair op <$>
              (base_name ←
                 [ "sunlit_incident_par"; "sunlit_fraction"; "shaded_incident_par";
                   "shaded_fraction"; "incident_scattered_par"; "incident_average_par";
                   "height"; "rh"; "windspeed"; "LeafN" ];
               pure_multilayer_names nlayers base_name))) as Hnd.
    { apply NoDup_fmap_2; [by intros ?? [=]|]. apply output_names_NoDup.
      by apply (bool_decide_unpack _). }
    cbn [mbind list_bind foldr] in Hnd. rewrite !fmap_app in Hnd. exact Hnd.
Qed.

Lemma multilayer_canopy_properties_pointers_witness :
  let inputs :=
    [ "par_incident_direct"; "par_incident_diffuse"; "absorptivity_par"; "lai";
      "cosine_zenith_angle"; "kd"; "chil"; "heightf"; "rh"; "windspeed";
      "LeafN"; "kpLN"; "lnfun"; "par_energy_content" ] in
  let outputs :=
    base_name ←
      [ "sunlit_incident_par"; "sunlit_fraction"; "shaded_incident_par";
        "shaded_fraction"; "incident_scattered_par"; "incident_average_par";
        "height"; "rh"; "windspeed"; "LeafN" ];
    pure_multilayer_names 2 base_name in
  let h := store_with 0 inputs 1%float ∪ store_with 0 outputs 0%float in
  ∃ m, outcome (multilayer_canopy_properties.new "two_layers" 2 0 0 h) = Ok m
       ∧ multilayer_canopy_properties.rh_ops m !! 1 = Some (0, "rh_layer_1")
       ∧ NoDup (mjoin (multilayer_ops m).*2).
Proof.
  intros inputs outputs h.
  destruct (outcome (multilayer_canopy_properties.new "two_layers" 2 0 0 h))
    as [m|e] eqn:Hm; [|by vm_compute in Hm].
  exists m.
  destruct (multilayer_canopy_properties_pointers "two_layers" 2 0 0 h m Hm)
    as (Hops & _ & Hnd); [lia|].
  split_and!; [done| |done].
  destruct (Hops "rh" (multilayer_canopy_properties.rh_ops m)) as [_ Hrh].
  - unfold multilayer_ops. rewrite !elem_of_cons. do 7 right. left. reflexivity.
  - exact (Hrh 1%Z ltac:(lia)).
Defined.

(** ** Output names end in a digit *)

Lemma last_char_cons (c : ascii) (s : string) :
  s ≠ EmptyString → last_char (String c s) = last_char s.
Proof. by destruct s. Qed.

Lemma last_char_app (s t : string) :
  t ≠ EmptyString → last_char (s +:+ t) = last_char t.
Proof.
  intros Ht. induction s as [|c s IH]; [done|].
  rewrite string_app_cons, last_char_cons; [done|].
  destruct s; [by rewrite string_app_nil|by rewrite string_app_cons].
Qed.

Lemma pretty_N_go_last x (s : string) :
  s ≠ EmptyString → last_char (pretty_N_go x s) = last_char s
                    ∧ pretty_N_go x s ≠ EmptyString.
Proof.
  revert s. induction (N.lt_wf_0 x) as [x _ IH]; intros s Hs.
  destruct (decide (x = 0)%N) as [->|Hx]; [by rewrite pretty_N_go_0|].
  rewrite pretty_N_go_step by lia.
  destruct (IH (x `div` 10)%N) with (s := String (pretty_N_char (x `mod` 10)) s)
    as [-> ?]; [apply N.div_lt; lia|done|].
  by rewrite last_char_cons.
Qed.

Lemma pretty_layer_ends_with_digit (k : Z) :
  (0 ≤ k)%Z → ends_with_digit (pretty k) = true ∧ pretty k ≠ EmptyString.
Proof.
  intros Hk. destruct k as [|p|p]; [done| |lia].
  unfold pretty, pretty_Z, pretty, pretty_positive, pretty, pretty_N.
  rewrite decide_False by done. rewrite pretty_N_go_step by done.
  destruct (pretty_N_go_last (N.pos p `div` 10)
              (String (pretty_N_char (N.pos p `mod` 10)) EmptyString)) as [Hlast Hne];
    [done|].
  split; [|done]. unfold ends_with_digit. rewrite Hlast. cbn [last_char].
  assert (N.pos p `mod` 10 < 10)%N as Hlt by (by apply N.mod_lt).
  destruct (N.pos p `mod` 10)%N as [|q]; [done|].
  assert (q = 1 ∨ q = 2 ∨ q = 3 ∨ q = 4 ∨ q = 5 ∨ q = 6 ∨ q = 7 ∨ q = 8 ∨ q = 9)%positive
    as [->|[->|[->|[->|[->|[->|[->|[->| ->]]]]]]]] by lia; done.
Qed.

Lemma add_layer_suffix_ends_with_digit (k : Z) (name : string) :
  (0 ≤ k)%Z → ends_with_digit (name +:+ "_layer_" +:+ pretty k) = true.
Proof.
  intros Hk. destruct (pretty_layer_ends_with_digit k Hk) as [Hd Hne].
  unfold ends_with_digit in *.
  rewrite !last_char_app; [done..|]. by destruct (pretty k).
Qed.

(** X9. The name of every output entry that multilayer_canopy_properties
    binds ends in a decimal digit, and the name of none of its fourteen
    inputs does: no output pointer refers to an input entry, not even the
    outputs rh_layer_<i>, windspeed_layer_<i> and LeafN_layer_<i> to the
    inputs rh, windspeed and LeafN, and not even when the input store and
    the output store are the same object. *)
Theorem multilayer_canopy_properties_outputs_apart
    (module_name : string) (nlayers : Z) (ip op : state_map_ptr) (h : heap)
    (m : multilayer_canopy_properties.t) :
  outcome (multilayer_canopy_properties.new module_name nlayers ip op h) = Ok m →
  (∀ p, p ∈ mjoin (multilayer_ops m).*2 → ends_with_digit p.2 = true)
  ∧ (∀ q, q ∈ multilayer_inputs m → ends_with_digit q.2 = false)
  ∧ ∀ p q, p ∈ mjoin (multilayer_ops m).*2 → q ∈ multilayer_inputs m → p ≠ q.
Proof.
  intros (_ & _ & Hin & Hops)%multilayer_canopy_properties_new_members.
  assert (∀ p, p ∈ mjoin (multilayer_ops m).*2 → ends_with_digit p.2 = true) as Hp.
  { intros p. rewrite Hops. cbn [fmap list_fmap snd mjoin list_join foldr].
    rewrite !elem_of_app, elem_of_nil.
    intros Hp.
    repeat match type of Hp with _ ∨ _ => destruct Hp as [Hp|Hp] end; try done;
      apply list_elem_of_fmap in Hp
        as (name & -> & (k & Hk & ->)%pure_multilayer_names_elem);
      cbn [snd]; apply add_layer_suffix_ends_with_digit; lia. }
  assert (∀ q, q ∈ multilayer_inputs m → ends_with_digit q.2 = false) as Hq.
  { rewrite Hin. apply Forall_forall. cbn [fmap list_fmap].
    repeat (apply Forall_cons; split; [done|]). constructor. }
  split_and!; [done..|].
  intros p q Hp' Hq' ->. specialize (Hp _ Hp'). specialize (Hq _ Hq'). congruence.
Qed.

Lemma multilayer_canopy_properties_outputs_apart_witness :
  let inputs :=
    [ "par_incident_direct"; "par_incident_diffuse"; "absorptivity_par"; "lai";
      "cosine_zenith_angle"; "kd"; "chil"; "heightf"; "rh"; "windspeed";
      "LeafN"; "kpLN"; "lnfun"; "par_energy_content" ] in
  let outputs :=
    base_name ←
      [ "sunlit_incident_par"; "sunlit_fraction"; "shaded_incident_par";
        "shaded_fraction"; "incident_scattered_par"; "incident_average_par";
        "height"; "rh"; "windspeed"; "LeafN" ];
    pure_multilayer_names 2 base_name in
  let h := store_with 0 inputs 1%float ∪ store_with 0 outputs 0%float in
  ∃ m, outcome (multilayer_canopy_properties.new "two_layers" 2 0 0 h) = Ok m
       ∧ ∀ p, p ∈ multilayer_canopy_properties.rh_ops m →
              p ≠ multilayer_canopy_properties.rh m.
Proof.
  intros inputs outputs h.
  destruct (outcome (multilayer_canopy_properties.new "two_layers" 2 0 0 h))
    as [m|e] eqn:Hm; [|by vm_compute in Hm].
  exists m. split; [done|]. intros p Hp.
  destruct (multilayer_canopy_properties_outputs_apart "two_layers" 2 0 0 h m Hm)
    as (_ & _ & Hapart).
  apply Hapart.
  - unfold multilayer_ops. cbn [fmap list_fmap snd mjoin list_join foldr].
    rewrite !elem_of_app. do 7 right. by left.
  - unfold multilayer_inputs. rewrite !elem_of_cons. do 8 right. by left.
Defined.

(** ** More on SystemSolverFactory *)

(** X10. The error message determines the offending name: two names with
    the same message are the same name. *)
Theorem message_names_one_solver (name1 name2 : string) :
  SystemSolverFactory.message name1 = SystemSolverFactory.message name2 →
  name1 = name2.
Proof.
  unfold SystemSolverFactory.message. intros H.
  apply (inj (String.append _)) in H. by apply string_app_inj_r in H.
Qed.

Lemma message_names_one_solver_witness :
  SystemSolverFactory.message "Gro_rk4" ≠ SystemSolverFactory.message "Gro_rk45".
Proof. intros H. by apply message_names_one_solver in H. Defined.

Lemma call_unregistered (system_solver_name : string)
    (step_size rel_error_tolerance abs_error_tolerance : float) (max_steps : Z) :
  system_solver_name ∉ SystemSolverFactory.get_solvers →
  SystemSolverFactory.call system_solver_name
    step_size rel_error_tolerance abs_error_tolerance max_steps
  = Err (out_of_range (SystemSolverFactory.message system_solver_name)).
Proof.
  intros Hname. rewrite get_solvers_lookup, <-eq_None_not_Some in Hname.
  unfold SystemSolverFactory.call, SystemSolverFactory.at_. by rewrite Hname.
Qed.

(** X11. What the factory returns, in full: the call returns a solver
    exactly when the name is one of the six of the table below, the solver
    is of the class the table gives for the name and holds the step size,
    the tolerances and the step limit as given; every other call throws
    [std::out_of_range] with the message for the name.  Names are compared
    exactly, and no two names give the same class. *)
Theorem factory_table (system_solver_name : string)
    (step_size rel_error_tolerance abs_error_tolerance : float) (max_steps : Z) :
  let table :=
    [ ("Gro", SystemSolverFactory.auto_solver);
      ("Gro_euler", SystemSolverFactory.homemade_euler_solver);
      ("Gro_euler_odeint", SystemSolverFactory.boost_euler_system_solver);
      ("Gro_rsnbrk", SystemSolverFactory.boost_rsnbrk_system_solver);
      ("Gro_rk4", SystemSolverFactory.boost_rk4_system_solver);
      ("Gro_rkck54", SystemSolverFactory.boost_rkck54_system_solver) ] in
  let result :=
    SystemSolverFactory.call system_solver_name
      step_size rel_error_tolerance abs_error_tolerance max_steps in
  (∀ solver, result = Ok solver
     ↔ (system_solver_name, SystemSolverFactory.class solver) ∈ table
       ∧ SystemSolverFactory.step_size solver = step_size
       ∧ SystemSolverFactory.rel_error_tolerance solver = rel_error_tolerance
       ∧ SystemSolverFactory.abs_error_tolerance solver = abs_error_tolerance
       ∧ SystemSolverFactory.max_steps solver = max_steps)
  ∧ (∀ e, result = Err e
       ↔ (system_solver_name ∉ table.*1)
         ∧ e = out_of_range (SystemSolverFactory.message system_solver_name))
  ∧ NoDup table.*1 ∧ NoDup table.*2.
Proof.
  cbv zeta. split_and!; [| |by apply (bool_decide_unpack _)..].
  - intros [T s r a n]. cbn [SystemSolverFactory.class SystemSolverFactory.step_size
      SystemSolverFactory.rel_error_tolerance SystemSolverFactory.abs_error_tolerance
      SystemSolverFactory.max_steps].
    rewrite !elem_of_cons, elem_of_nil.
    destruct (decide (system_solver_name ∈ SystemSolverFactory.get_solvers))
      as [Hin|Hout].
    + rewrite get_solvers_names, !elem_of_cons, elem_of_nil in Hin.
      destruct Hin as [->|[->|[->|[->|[->|[->|[]]]]]]];
        (split;
         [intros [= <- <- <- <- <-]; split_and!; try done; tauto
         |intros (Hname & -> & -> & -> & ->);
          repeat match type of Hname with _ ∨ _ => destruct Hname as [Hname|Hname] end;
          by simplify_eq]).
    + rewrite call_unregistered by done. split; [done|].
      intros (Hname & _). destruct Hout. rewrite get_solvers_names, !elem_of_cons.
      repeat match type of Hname with _ ∨ _ => destruct Hname as [Hname|Hname] end;
        [simplify_eq; tauto..|done].
  - intros e. cbn [fmap list_fmap fst]. rewrite !elem_of_cons, elem_of_nil.
    destruct (decide (system_solver_name ∈ SystemSolverFactory.get_solvers))
      as [Hin|Hout].
    + rewrite get_solvers_names, !elem_of_cons, elem_of_nil in Hin.
      destruct Hin as [->|[->|[->|[->|[->|[->|[]]]]]]];
        (split; [done|intros [Hname _]; destruct Hname; tauto]).
    + rewrite call_unregistered by done.
      rewrite get_solvers_names, !elem_of_cons, elem_of_nil in Hout.
      split; [intros [= <-]; split; [tauto|done]|by intros [_ ->]].
Qed.

(** ** lightME with no direct light *)

Lemma zero_eqb (x : float) : is_zero x → (x =? 0)%float = true.
Proof. intros [s Hx]. by rewrite FloatAxioms.eqb_spec, Hx. Qed.

Lemma zero_div_zero_plus_positive (d x : float) :
  is_zero d → (0 <? x)%float = true → is_zero (d / (d + x)).
Proof.
  intros [sd Hd]. rewrite FloatAxioms.ltb_spec. change (Prim2SF 0) with (S754_zero false).
  intros Hx. unfold is_zero.
  rewrite FloatAxioms.div_spec, FloatAxioms.add_spec, Hd.
  destruct (Prim2SF x) as [sx|sx| |sx m e]; try done; cbn; eauto.
Qed.

(** X12. Above the horizon, when [pow] returns a zero direct transmittance
    and the diffuse transmittance returned is positive (finite or
    infinite), the direct fraction returned is a zero and the diffuse
    fraction is exactly 1. *)
Theorem lightME_opaque_atmosphere pow atmospheric_pressure_at_sea_level
    (cosine_zenith_angle atmospheric_pressure
     atmospheric_transmittance atmospheric_scattering : float) :
  (cosine_zenith_angle <=? 0)%float = false →
  (pow atmospheric_transmittance
     (atmospheric_pressure / atmospheric_pressure_at_sea_level / cosine_zenith_angle)
   =? 0)%float = true →
  let light :=
    lightME pow atmospheric_pressure_at_sea_level cosine_zenith_angle
      atmospheric_pressure atmospheric_transmittance atmospheric_scattering in
  (0 <? diffuse_transmittance light)%float = true →
  (direct_fraction light =? 0)%float = true ∧ diffuse_fraction light = 1%float.
Proof.
  intros Hcos Hd%eqb_zero. cbv zeta. unfold lightME. rewrite Hcos.
  cbn [direct_fraction diffuse_fraction diffuse_transmittance].
  set (d := pow _ _) in *. intros Hx.
  pose proof (zero_div_zero_plus_positive d _ Hd Hx) as Hzero.
  split; [by apply zero_eqb|by apply one_sub_zero].
Qed.

Lemma lightME_opaque_atmosphere_witness :
  let light := lightME example_pow 0x1.8bcdp+16 0x1p-1 100000 0 0x1p-2 in
  (direct_fraction light =? 0)%float = true ∧ diffuse_fraction light = 1%float.
Proof. by apply lightME_opaque_atmosphere. Defined.
